(** * The TfL journey-planning tools of [agent.py], embedded and verified

    [agent.py] registers three tools with a language-model agent:
    [stop_point_types], [stop_point_list] and [journey_planner].  Each one
    sends a GET request to the TfL API through [get_tfl_api] and turns the
    decoded JSON body into a plain Python value.  [stop_point_list] runs its
    request under the module-level [API_CALL_LOCK].

    The embedding has three layers:
    - Python values: strings, decoded JSON, exceptions ([result]);
    - the tools as trees of effects ([prog]): lock, client request, logging,
      and access to the module-level [STOP_TYPES_CACHE];
    - two readings of those trees: [run], one call against a client that
      answers at once, and [step], the interleavings of a pool of calls on
      the event loop. *)

From Stdlib Require Import ZArith String Ascii List Bool Lia.
From stdpp Require Import gmap strings list fin_maps sorting relations.

Open Scope string_scope.
Open Scope Z_scope.

(** ** Python strings

    A [str] is held as the bytes of its UTF-8 encoding.  [lower] folds the
    ASCII capitals only.  For the two needles the tools search for, this
    gives the same answer as Python's [str.lower]: outside ASCII, the only
    code points whose lower-case form contains an ASCII letter are U+0130
    (to "i" followed by U+0307) and U+212A (to "k"), and neither "camden"
    nor "liverpool" has a "k" or an "i" that ends the needle or is followed
    by U+0307. *)

Definition lower_ascii (c : ascii) : ascii :=
  let n := nat_of_ascii c in
  if ((65 <=? n) && (n <=? 90))%nat then ascii_of_nat (n + 32) else c.

Fixpoint lower (s : string) : string :=
  match s with
  | EmptyString => EmptyString
  | String c s' => String (lower_ascii c) (lower s')
  end.

(** [str_in needle hay] is Python's [needle in hay] on two strings. *)
Fixpoint str_in (needle hay : string) : bool :=
  String.prefix needle hay
  || match hay with
     | EmptyString => false
     | String _ hay' => str_in needle hay'
     end.

(** What the specification calls a case-insensitive substring match: some
    contiguous piece of [name] spells [needle] once capitals are folded. *)
Definition contains_ignoring_case (needle name : string) : Prop :=
  ∃ pre mid post, name = pre +:+ mid +:+ post ∧ lower mid = needle.

(** ** Exceptions and fallible expressions *)

Inductive exn : Type :=
| HTTPStatusError (status : Z)
| ModelRetry (message : string)
| KeyError (key : string)
| TypeError
| AttributeError
| JSONDecodeError
| RuntimeError
| OtherError (name : string).   (* any other class, as [httpx.ReadTimeout] *)

Inductive result (A : Type) : Type :=
| Ok (a : A)
| Err (e : exn).
Arguments Ok {A} a.
Arguments Err {A} e.

#[export] Instance result_ret : MRet result := λ A a, Ok a.
#[export] Instance result_bind : MBind result := λ A B f m,
  match m with
  | Ok a => f a
  | Err e => Err e
  end.

(** ** Decoded JSON

    The value [r.json()] returns.  An object is an association list read
    through the first binding of a key, in document order.  Numbers are the
    integers; floating-point numbers are left out. *)

#[warnings="-register-all"]
Inductive json : Type :=
| JNull
| JBool (b : bool)
| JNum (n : Z)
| JStr (s : string)
| JArr (items : list json)
| JObj (fields : list (string * json)).

Fixpoint assoc (key : string) (fields : list (string * json)) : option json :=
  match fields with
  | [] => None
  | (k, v) :: rest => if String.eqb k key then Some v else assoc key rest
  end.

(** [v[key]] for a string [key]. *)
Definition getitem (v : json) (key : string) : result json :=
  match v with
  | JObj fields =>
      match assoc key fields with
      | Some x => Ok x
      | None => Err (KeyError key)
      end
  | _ => Err TypeError
  end.

Fixpoint chars (s : string) : list string :=
  match s with
  | EmptyString => []
  | String c s' => String c EmptyString :: chars s'
  end.

(** [for x in v]: the items of an array, the keys of an object, the
    characters of a string; anything else is not iterable. *)
Definition py_iter (v : json) : result (list json) :=
  match v with
  | JArr items => Ok items
  | JObj fields => Ok (JStr <$> remove_dups (fields.*1))
  | JStr s => Ok (JStr <$> chars s)
  | _ => Err TypeError
  end.

(** [v.lower()]: only a [str] has the method. *)
Definition py_lower (v : json) : result string :=
  match v with
  | JStr s => Ok (lower s)
  | _ => Err AttributeError
  end.

(** Keys of a Python [set].  [True] and [1] (and [False] and [0]) are one
    key; lists and dicts are unhashable. *)
Inductive pykey : Type :=
| KNone
| KInt (n : Z)
| KStr (s : string).

Definition py_hash (v : json) : result pykey :=
  match v with
  | JNull => Ok KNone
  | JBool b => Ok (KInt (if b then 1 else 0))
  | JNum n => Ok (KInt n)
  | JStr s => Ok (KStr s)
  | JArr _ | JObj _ => Err TypeError
  end.

#[export] Instance pykey_eq_dec : EqDecision pykey.
Proof. solve_decision. Defined.

Definition pykey_encode (k : pykey) : unit + (Z + string) :=
  match k with
  | KNone => inl tt
  | KInt n => inr (inl n)
  | KStr s => inr (inr s)
  end.

Definition pykey_decode (x : unit + (Z + string)) : pykey :=
  match x with
  | inl _ => KNone
  | inr (inl n) => KInt n
  | inr (inr s) => KStr s
  end.

#[export] Instance pykey_countable : Countable pykey.
Proof.
  apply (inj_countable' pykey_encode pykey_decode).
  intros []; reflexivity.
Defined.

(** ** The list comprehension of [stop_point_list] *)

(** The [if] clause:
    ["camden" in sp["commonName"].lower() or
     "liverpool" in sp["commonName"].lower()]. *)
Definition keep (stop_point : json) : result bool :=
  name ← getitem stop_point "commonName";
  l ← py_lower name;
  if str_in "camden" l then Ok true
  else
    name' ← getitem stop_point "commonName";
    l' ← py_lower name';
    Ok (str_in "liverpool" l').

(** The element expression:
    [{"name": sp["commonName"], "naptanId": sp["naptanId"]}]. *)
Definition project (stop_point : json) : result json :=
  name ← getitem stop_point "commonName";
  ident ← getitem stop_point "naptanId";
  Ok (JObj [("name", name); ("naptanId", ident)]).

Fixpoint stop_point_comprehension (items : list json) : result (list json) :=
  match items with
  | [] => Ok []
  | stop_point :: rest =>
      b ← keep stop_point;
      if b : bool then
        p ← project stop_point;
        ps ← stop_point_comprehension rest;
        Ok (p :: ps)
      else stop_point_comprehension rest
  end.

Definition filter_stop_points (body : json) : result (list json) :=
  items ← py_iter body;
  stop_point_comprehension items.

(** ** The set comprehension of [journey_planner]

    [{leg["instruction"]["summary"]
      for journey in body["journeys"] for leg in journey["legs"]}] *)

Fixpoint legs_into (acc : gset pykey) (legs : list json) : result (gset pykey) :=
  match legs with
  | [] => Ok acc
  | leg :: rest =>
      instruction ← getitem leg "instruction";
      summary ← getitem instruction "summary";
      k ← py_hash summary;
      legs_into ({[k]} ∪ acc) rest
  end.

Fixpoint journeys_into (acc : gset pykey) (journeys : list json) : result (gset pykey) :=
  match journeys with
  | [] => Ok acc
  | journey :: rest =>
      legs ← getitem journey "legs";
      ll ← py_iter legs;
      acc' ← legs_into acc ll;
      journeys_into acc' rest
  end.

Definition leg_summaries (body : json) : result (gset pykey) :=
  journeys ← getitem body "journeys";
  jl ← py_iter journeys;
  journeys_into ∅ jl.

(** ** Requests, responses and the effects of a tool

    [Deps] keeps the API key.  Its [client] is the environment that answers
    the [ClientGet] effect below. *)

Record Deps : Type := { tfl_api_key : option string }.

Record RunContext : Type := { deps : Deps }.

(** A keyword argument of [client.get]: a header dict (a value may be
    [None]) or any other value. *)
Inductive kwarg : Type :=
| KwHeaders (h : gmap string (option string))
| KwOther (v : json).

(** What a tool reads of an [httpx.Response]: the status and the decoded
    body, [None] when the body is not JSON. *)
Record response : Type := { status_code : Z; json_body : option json }.

(** httpx: [is_success] is a status from 200 to 299, and
    [raise_for_status] raises [HTTPStatusError] for every other one. *)
Definition is_success (r : response) : bool :=
  (200 <=? status_code r) && (status_code r <=? 299).

Definition raise_for_status (r : response) : result unit :=
  if is_success r then Ok tt else Err (HTTPStatusError (status_code r)).

Definition response_json (r : response) : result json :=
  match json_body r with
  | Some v => Ok v
  | None => Err JSONDecodeError
  end.

Inductive level : Type := INFO | ERROR.

(** A coroutine, as the tree of what it asks of its surroundings. *)
Inductive prog (A : Type) : Type :=
| Ret (a : A)
| Raise (e : exn)
| LockAcquire (k : prog A)
| LockRelease (k : prog A)
| LogMsg (lvl : level) (msg : string) (k : prog A)
| ClientGet (args : list string) (kwargs : gmap string kwarg)
            (k : exn + response → prog A)
| CacheRead (key : string) (k : option json → prog A)
| CacheWrite (key : string) (v : json) (k : prog A).
Arguments Ret {A} a.
Arguments Raise {A} e.
Arguments LockAcquire {A} k.
Arguments LockRelease {A} k.
Arguments LogMsg {A} lvl msg k.
Arguments ClientGet {A} args kwargs k.
Arguments CacheRead {A} key k.
Arguments CacheWrite {A} key v k.

Fixpoint prog_bind {A B : Type} (f : A → prog B) (p : prog A) : prog B :=
  match p with
  | Ret a => f a
  | Raise e => Raise e
  | LockAcquire k => LockAcquire (prog_bind f k)
  | LockRelease k => LockRelease (prog_bind f k)
  | LogMsg lvl msg k => LogMsg lvl msg (prog_bind f k)
  | ClientGet args kwargs k => ClientGet args kwargs (λ r, prog_bind f (k r))
  | CacheRead key k => CacheRead key (λ v, prog_bind f (k v))
  | CacheWrite key v k => CacheWrite key v (prog_bind f k)
  end.

#[export] Instance prog_ret : MRet prog := λ A a, Ret a.
#[export] Instance prog_mbind : MBind prog := λ A B f p, prog_bind f p.

Definition lift {A : Type} (r : result A) : prog A :=
  match r with
  | Ok a => Ret a
  | Err e => Raise e
  end.

Definition log (lvl : level) (msg : string) : prog unit := LogMsg lvl msg (Ret tt).

(** [async with API_CALL_LOCK: body].  [Lock.__aexit__] releases the lock
    on every way out of [body] and lets an exception pass. *)
Fixpoint releasing {A : Type} (body : prog A) : prog A :=
  match body with
  | Ret a => LockRelease (Ret a)
  | Raise e => LockRelease (Raise e)
  | LockAcquire k => LockAcquire (releasing k)
  | LockRelease k => LockRelease (releasing k)
  | LogMsg lvl msg k => LogMsg lvl msg (releasing k)
  | ClientGet args kwargs k => ClientGet args kwargs (λ r, releasing (k r))
  | CacheRead key k => CacheRead key (λ v, releasing (k v))
  | CacheWrite key v k => CacheWrite key v (releasing k)
  end.

Definition async_with_lock {A : Type} (body : prog A) : prog A :=
  LockAcquire (releasing body).

(** ** [get_tfl_api] *)

(** The expression [dict( **kwargs.get("headers", {}), app_key=app_key)]:
    a caller header named [app_key] is a second value for that keyword, and
    a [headers] that is no mapping cannot be unpacked. *)
Definition merged_headers (kwargs : gmap string kwarg) (app_key : option string)
  : result (gmap string (option string)) :=
  match kwargs !! "headers" with
  | None => Ok {["app_key" := app_key]}
  | Some (KwHeaders h) =>
      match h !! "app_key" with
      | None => Ok (<["app_key" := app_key]> h)
      | Some _ => Err TypeError
      end
  | Some (KwOther _) => Err TypeError
  end.

(** The keywords of a call [f( **kwargs, name=v)]: a [name] that [kwargs]
    already binds is a [TypeError] (multiple values for the keyword). *)
Definition call_keywords (kwargs : gmap string kwarg) (name : string) (v : kwarg)
  : result (gmap string kwarg) :=
  match kwargs !! name with
  | None => Ok (<[name := v]> kwargs)
  | Some _ => Err TypeError
  end.

Definition get_tfl_api (ctx : RunContext) (args : list string)
    (kwargs : gmap string kwarg) : prog response :=
  let app_key := tfl_api_key (deps ctx) in
  headers ← lift (merged_headers kwargs app_key);
  keywords ← lift (call_keywords kwargs "headers" (KwHeaders headers));
  ClientGet args keywords
    (λ answer, match answer with
               | inl e => Raise e
               | inr r => Ret r
               end).

(** ** The three tools *)

Definition stop_point_types (ctx : RunContext) : prog json :=
  log INFO "Retrieving stop types";;
  r ← get_tfl_api ctx ["https://api.tfl.gov.uk/StopPoint/meta/stoptypes"] ∅;
  lift (raise_for_status r);;
  body ← lift (response_json r);
  Ret (JObj [("stop_point_types", body)]).

Definition stop_point_list (ctx : RunContext) (stop_point_type : string)
  : prog (list json) :=
  r ← async_with_lock
        (log INFO ("Retrieving stop points for type " +:+ stop_point_type);;
         r ← get_tfl_api ctx
               ["https://api.tfl.gov.uk/StopPoint/Type/" +:+ stop_point_type] ∅;
         match raise_for_status r with
         | Ok _ => Ret r
         | Err _ =>
             log ERROR "stop_point_list exception triggered";;
             if status_code r =? 404
             then Raise (ModelRetry "invalid stop point type provided!")
             else Ret r
         end);
  lift (body ← response_json r; filter_stop_points body).

Definition journey_planner (ctx : RunContext) (from_naptan_id to_naptan_id : string)
  : prog (gset pykey) :=
  log INFO ("Retrieving journey plan from naptanId#" +:+ from_naptan_id
            +:+ " to naptanId#" +:+ to_naptan_id);;
  r ← get_tfl_api ctx
        ["https://api.tfl.gov.uk/Journey/JourneyResults/" +:+ from_naptan_id
         +:+ "/to/" +:+ to_naptan_id] ∅;
  lift (raise_for_status r);;
  lift (body ← response_json r; leg_summaries body).

(** [main] reads the key with [os.getenv("TFL_API_KEY")]. *)
Definition main_deps (environ : gmap string string) : Deps :=
  {| tfl_api_key := environ !! "TFL_API_KEY" |}.

(** ** One call at a time

    The module-level state and what a call does to it.  [client] answers a
    request with a response or with the exception [client.get] raises. *)

Inductive event : Type :=
| EvAcquire
| EvRelease
| EvLog (lvl : level) (msg : string)
| EvRequest (args : list string) (kwargs : gmap string kwarg)
| EvCacheRead (key : string)
| EvCacheWrite (key : string) (v : json).

Record world : Type := {
  API_CALL_LOCK : bool;                      (* [API_CALL_LOCK.locked()] *)
  STOP_TYPES_CACHE : gmap string json;
  trace : list event
}.

Definition emit (ev : event) (w : world) : world :=
  {| API_CALL_LOCK := API_CALL_LOCK w;
     STOP_TYPES_CACHE := STOP_TYPES_CACHE w;
     trace := trace w ++ [ev] |}.

Definition set_lock (b : bool) (w : world) : world :=
  {| API_CALL_LOCK := b;
     STOP_TYPES_CACHE := STOP_TYPES_CACHE w;
     trace := trace w |}.

Definition set_cache (key : string) (v : json) (w : world) : world :=
  {| API_CALL_LOCK := API_CALL_LOCK w;
     STOP_TYPES_CACHE := <[key := v]> (STOP_TYPES_CACHE w);
     trace := trace w |}.

Definition initial_world : world :=
  {| API_CALL_LOCK := false; STOP_TYPES_CACHE := ∅; trace := [] |}.

Inductive outcome (A : Type) : Type :=
| Returned (a : A)
| Raised (e : exn)
| Waiting.
Arguments Returned {A} a.
Arguments Raised {A} e.
Arguments Waiting {A}.

Definition client_fn : Type := list string → gmap string kwarg → exn + response.

(** A call run to its end.  A held lock makes [acquire] wait; with nobody
    else to release it, the call waits for ever.  [Lock.release] on a lock
    that is not held raises [RuntimeError]. *)
Fixpoint run {A : Type} (client : client_fn) (p : prog A) (w : world)
  : outcome A * world :=
  match p with
  | Ret a => (Returned a, w)
  | Raise e => (Raised e, w)
  | LockAcquire k =>
      if API_CALL_LOCK w then (Waiting, w)
      else run client k (emit EvAcquire (set_lock true w))
  | LockRelease k =>
      if API_CALL_LOCK w then run client k (emit EvRelease (set_lock false w))
      else (Raised RuntimeError, w)
  | LogMsg lvl msg k => run client k (emit (EvLog lvl msg) w)
  | ClientGet args kwargs k =>
      run client (k (client args kwargs)) (emit (EvRequest args kwargs) w)
  | CacheRead key k =>
      run client (k (STOP_TYPES_CACHE w !! key)) (emit (EvCacheRead key) w)
  | CacheWrite key v k =>
      run client k (emit (EvCacheWrite key v) (set_cache key v w))
  end.

(** ** The tools as the agent calls them

    [@tfl_search.tool] registers the three coroutines; the agent picks one
    by name and supplies the arguments. *)

Inductive tool_call : Type :=
| CallStopPointTypes (ctx : RunContext)
| CallStopPointList (ctx : RunContext) (stop_point_type : string)
| CallJourneyPlanner (ctx : RunContext) (from_naptan_id to_naptan_id : string).

Inductive tool_value : Type :=
| StopPointTypes (v : json)
| StopPoints (l : list json)
| LegSummaries (s : gset pykey).

Definition invoke (c : tool_call) : prog tool_value :=
  match c with
  | CallStopPointTypes ctx => v ← stop_point_types ctx; Ret (StopPointTypes v)
  | CallStopPointList ctx ty => l ← stop_point_list ctx ty; Ret (StopPoints l)
  | CallJourneyPlanner ctx a b => s ← journey_planner ctx a b; Ret (LegSummaries s)
  end.

Definition is_stop_point_list (c : tool_call) : bool :=
  match c with
  | CallStopPointList _ _ => true
  | _ => false
  end.

(** Tool calls made one after the other. *)
Fixpoint run_calls (client : client_fn) (calls : list tool_call) (w : world) : world :=
  match calls with
  | [] => w
  | c :: rest => run_calls client rest (snd (run client (invoke c) w))
  end.

(** ** Many calls on the event loop

    A task is a coroutine that is running, or is suspended in
    [await client.get(...)] until the answer comes.  A task that finds the
    lock held has no step until the lock is free.  [holds] records whether
    the task is between its [acquire] and its [release]. *)

Inductive phase (A : Type) : Type :=
| Running (p : prog A)
| Awaiting (k : exn + response → prog A).
Arguments Running {A} p.
Arguments Awaiting {A} k.

Record task (A : Type) : Type := { at_point : phase A; holds : bool }.
Arguments at_point {A} t.
Arguments holds {A} t.

Record pool (A : Type) : Type := { shared : world; tasks : list (task A) }.
Arguments shared {A} p.
Arguments tasks {A} p.

Inductive task_step {A : Type} : world → task A → world → task A → Prop :=
| step_acquire w k h :
    API_CALL_LOCK w = false →
    task_step w {| at_point := Running (LockAcquire k); holds := h |}
              (emit EvAcquire (set_lock true w))
              {| at_point := Running k; holds := true |}
| step_release w k h :
    API_CALL_LOCK w = true →
    task_step w {| at_point := Running (LockRelease k); holds := h |}
              (emit EvRelease (set_lock false w))
              {| at_point := Running k; holds := false |}
| step_release_unlocked w k h :
    API_CALL_LOCK w = false →
    task_step w {| at_point := Running (LockRelease k); holds := h |}
              w {| at_point := Running (Raise RuntimeError); holds := h |}
| step_log w lvl msg k h :
    task_step w {| at_point := Running (LogMsg lvl msg k); holds := h |}
              (emit (EvLog lvl msg) w)
              {| at_point := Running k; holds := h |}
| step_send w args kwargs k h :
    task_step w {| at_point := Running (ClientGet args kwargs k); holds := h |}
              (emit (EvRequest args kwargs) w)
              {| at_point := Awaiting k; holds := h |}
| step_answer w k h answer :
    task_step w {| at_point := Awaiting k; holds := h |}
              w {| at_point := Running (k answer); holds := h |}
| step_cache_read w key k h :
    task_step w {| at_point := Running (CacheRead key k); holds := h |}
              (emit (EvCacheRead key) w)
              {| at_point := Running (k (STOP_TYPES_CACHE w !! key)); holds := h |}
| step_cache_write w key v k h :
    task_step w {| at_point := Running (CacheWrite key v k); holds := h |}
              (emit (EvCacheWrite key v) (set_cache key v w))
              {| at_point := Running k; holds := h |}.

Inductive step {A : Type} : pool A → pool A → Prop :=
| step_at i w ts t w' t' :
    ts !! i = Some t →
    task_step w t w' t' →
    step {| shared := w; tasks := ts |} {| shared := w'; tasks := <[i := t']> ts |}.

Definition spawn (calls : list tool_call) : pool tool_value :=
  {| shared := initial_world;
     tasks := (λ c, {| at_point := Running (invoke c); holds := false |}) <$> calls |}.

Definition finished {A : Type} (t : task A) : bool :=
  match at_point t with
  | Running (Ret _) | Running (Raise _) => true
  | _ => false
  end.

Definition awaiting {A : Type} (t : task A) : bool :=
  match at_point t with
  | Awaiting _ => true
  | _ => false
  end.

Definition holders {A : Type} (ts : list (task A)) : nat :=
  length (filter (λ t, holds t = true) ts).

(** *** Lock discipline of a coroutine

    [disciplined g h p]: run by a task whose [holds] is [h], the rest [p] of
    the coroutine acquires the lock only when it does not hold it, releases
    it only when it does, ends without it and, when [g] is set, sends every
    request while holding it. *)
Fixpoint disciplined {A : Type} (g h : bool) (p : prog A) : Prop :=
  match p with
  | Ret _ | Raise _ => h = false
  | LockAcquire k => h = false ∧ disciplined g true k
  | LockRelease k => h = true ∧ disciplined g false k
  | LogMsg _ _ k => disciplined g h k
  | ClientGet _ _ k => (g = true → h = true) ∧ ∀ answer, disciplined g h (k answer)
  | CacheRead _ k => ∀ v, disciplined g h (k v)
  | CacheWrite _ _ k => disciplined g h k
  end.

Definition task_disciplined {A : Type} (g : bool) (t : task A) : Prop :=
  match at_point t with
  | Running p => disciplined g (holds t) p
  | Awaiting k => (g = true → holds t = true) ∧ ∀ answer, disciplined g (holds t) (k answer)
  end.

(** [lock_free p]: no path of [p] touches the lock. *)
Fixpoint lock_free {A : Type} (p : prog A) : Prop :=
  match p with
  | Ret _ | Raise _ => True
  | LockAcquire _ | LockRelease _ => False
  | LogMsg _ _ k => lock_free k
  | ClientGet _ _ k => ∀ answer, lock_free (k answer)
  | CacheRead _ k => ∀ v, lock_free (k v)
  | CacheWrite _ _ k => lock_free k
  end.

(** [cache_free p]: no path of [p] reads or writes [STOP_TYPES_CACHE]. *)
Fixpoint cache_free {A : Type} (p : prog A) : Prop :=
  match p with
  | Ret _ | Raise _ => True
  | LockAcquire k | LockRelease k | LogMsg _ _ k => cache_free k
  | ClientGet _ _ k => ∀ answer, cache_free (k answer)
  | CacheRead _ _ | CacheWrite _ _ _ => False
  end.

(** [within n p]: every path of [p] ends in at most [n] steps of the event
    loop (a request takes two: sending it and getting the answer). *)
Fixpoint within {A : Type} (n : nat) (p : prog A) {struct p} : Prop :=
  match p with
  | Ret _ | Raise _ => True
  | LockAcquire k | LockRelease k | LogMsg _ _ k | CacheWrite _ _ k =>
      match n with
      | O => False
      | S m => within m k
      end
  | ClientGet _ _ k =>
      match n with
      | S (S m) => ∀ answer, within m (k answer)
      | _ => False
      end
  | CacheRead _ k =>
      match n with
      | O => False
      | S m => ∀ v, within m (k v)
      end
  end.

Definition task_within {A : Type} (n : nat) (t : task A) : Prop :=
  match at_point t with
  | Running p => within n p
  | Awaiting k =>
      match n with
      | O => False
      | S m => ∀ answer, within m (k answer)
      end
  end.

Inductive budget {A : Type} : list (task A) → nat → Prop :=
| budget_nil : budget [] 0
| budget_cons t ts n m : task_within n t → budget ts m → budget (t :: ts) (n + m).

Definition call_cost (c : tool_call) : nat :=
  if is_stop_point_list c then 6%nat else 3%nat.

Definition calls_cost (calls : list tool_call) : nat :=
  sum_list (call_cost <$> calls).

(** ** The words of the specification *)

Definition allow_list : list string := ["camden"; "liverpool"].

Definition on_allow_list (name : string) : Prop :=
  ∃ needle, needle ∈ allow_list ∧ contains_ignoring_case needle name.

(** The name and the identifier of a raw record, when it has them. *)
Definition common_name (sp : json) : option string :=
  match getitem sp "commonName" with
  | Ok (JStr s) => Some s
  | _ => None
  end.

Definition naptan_id (sp : json) : option json :=
  match getitem sp "naptanId" with
  | Ok v => Some v
  | Err _ => None
  end.

Definition is_stop_point_record (sp : json) : bool :=
  match common_name sp, naptan_id sp with
  | Some _, Some _ => true
  | _, _ => false
  end.

(** A Stop Point: the projection with the two fields. *)
Definition stop_point (name : string) (ident : json) : json :=
  JObj [("name", JStr name); ("naptanId", ident)].

(** [selects items out]: [out] lists the Stop Points of the records of
    [items] whose name is on the allow-list, in the order of [items]. *)
Inductive selects : list json → list json → Prop :=
| selects_nil : selects [] []
| selects_keep sp name ident items out :
    common_name sp = Some name → on_allow_list name →
    naptan_id sp = Some ident →
    selects items out →
    selects (sp :: items) (stop_point name ident :: out)
| selects_skip sp name items out :
    common_name sp = Some name → ¬ on_allow_list name →
    selects items out →
    selects (sp :: items) out.

(** [picked items out picks]: [picks] lists, in increasing order, the
    positions in [items] of the records on the allow-list, and the k-th
    element of [out] is the Stop Point of the k-th of them. *)
Definition picked (items out : list json) (picks : list nat) : Prop :=
  StronglySorted lt picks
  ∧ length picks = length out
  ∧ (∀ k i, picks !! k = Some i →
       ∃ sp name ident,
         items !! i = Some sp ∧ common_name sp = Some name ∧ on_allow_list name
         ∧ naptan_id sp = Some ident ∧ out !! k = Some (stop_point name ident))
  ∧ (∀ i sp name,
       items !! i = Some sp → common_name sp = Some name → on_allow_list name →
       i ∈ picks).

(** [leg_summary body v]: [v] is the instruction summary of a leg of a
    journey option of [body]. *)
Definition leg_summary (body v : json) : Prop :=
  ∃ journeys jl journey legs ll leg instruction,
    getitem body "journeys" = Ok journeys ∧ py_iter journeys = Ok jl
    ∧ journey ∈ jl
    ∧ getitem journey "legs" = Ok legs ∧ py_iter legs = Ok ll
    ∧ leg ∈ ll
    ∧ getitem leg "instruction" = Ok instruction
    ∧ getitem instruction "summary" = Ok v.

(** A journey body as the API sends it: an object whose [journeys] is an
    array of objects, whose [legs] are arrays of objects with a string at
    [instruction.summary]. *)
Definition is_leg (leg : json) : bool :=
  match getitem leg "instruction" with
  | Ok instruction =>
      match getitem instruction "summary" with
      | Ok (JStr _) => true
      | _ => false
      end
  | Err _ => false
  end.

Definition is_journey (journey : json) : bool :=
  match getitem journey "legs" with
  | Ok (JArr ll) => forallb is_leg ll
  | _ => false
  end.

Definition is_journey_body (body : json) : bool :=
  match getitem body "journeys" with
  | Ok (JArr jl) => forallb is_journey jl
  | _ => false
  end.

(** ** Clients *)

(** A client that answers every request with [r]. *)
Definition replying (r : response) : client_fn := λ _ _, inr r.

(** httpx encodes the headers when it builds the request, before anything
    is sent, and a value that is neither [str] nor [bytes] makes that raise
    ([None] has no [encode]; later versions raise [TypeError] outright). *)
Definition header_values_ok (kwargs : gmap string kwarg) : bool :=
  match kwargs !! "headers" with
  | Some (KwHeaders h) => bool_decide (map_Forall (λ _ v, is_Some v) h)
  | _ => true
  end.

Definition httpx_like (client : client_fn) : Prop :=
  ∀ args kwargs, header_values_ok kwargs = false → ∃ e, client args kwargs = inl e.

Definition is_ascii_string (s : string) : bool :=
  forallb (λ c, (nat_of_ascii c <? 128)%nat) (list_ascii_of_string s).

(** httpx encodes a header value that is a string as ASCII. *)
Definition header_values_ascii (kwargs : gmap string kwarg) : bool :=
  match kwargs !! "headers" with
  | Some (KwHeaders h) =>
      bool_decide (map_Forall (λ _ v, default true (is_ascii_string <$> v) = true) h)
  | _ => true
  end.

(** A client that refuses a request where the encoding of the header
    values fails, [TypeError] for a value that is no string and
    [UnicodeEncodeError] for a string that is not ASCII, and answers [r]
    otherwise.  It stands for httpx only where it refuses: what httpx still
    checks when it sends the request is not part of it. *)
Definition strict_client (r : response) : client_fn :=
  λ _ kwargs,
    if header_values_ok kwargs
    then if header_values_ascii kwargs
         then inr r
         else inl (OtherError "UnicodeEncodeError")
    else inl TypeError.

(** ** Requests and traces of the tools *)

Definition of_result {A : Type} (r : result A) : outcome A :=
  match r with
  | Ok a => Returned a
  | Err e => Raised e
  end.

(** The keywords every tool hands to [client.get]. *)
Definition request_keywords (ctx : RunContext) : gmap string kwarg :=
  {["headers" := KwHeaders {["app_key" := tfl_api_key (deps ctx)]}]}.

Definition stop_point_types_url : string :=
  "https://api.tfl.gov.uk/StopPoint/meta/stoptypes".

Definition stop_point_list_url (stop_point_type : string) : string :=
  "https://api.tfl.gov.uk/StopPoint/Type/" +:+ stop_point_type.

Definition journey_planner_url (from_naptan_id to_naptan_id : string) : string :=
  "https://api.tfl.gov.uk/Journey/JourneyResults/" +:+ from_naptan_id
  +:+ "/to/" +:+ to_naptan_id.

Definition with_trace (w : world) (evs : list event) : world :=
  {| API_CALL_LOCK := API_CALL_LOCK w;
     STOP_TYPES_CACHE := STOP_TYPES_CACHE w;
     trace := trace w ++ evs |}.

Definition with_cache (cache : gmap string json) (w : world) : world :=
  {| API_CALL_LOCK := API_CALL_LOCK w;
     STOP_TYPES_CACHE := cache;
     trace := trace w |}.

Definition is_cache_event (ev : event) : bool :=
  match ev with
  | EvCacheRead _ | EvCacheWrite _ _ => true
  | _ => false
  end.

Definition stop_point_types_events (ctx : RunContext) : list event :=
  [EvLog INFO "Retrieving stop types";
   EvRequest [stop_point_types_url] (request_keywords ctx)].

(** What a call of [stop_point_list] adds to the trace; [failed] tells
    whether [raise_for_status] raised. *)
Definition stop_point_list_events (ctx : RunContext) (stop_point_type : string)
    (failed : bool) : list event :=
  [EvAcquire;
   EvLog INFO ("Retrieving stop points for type " +:+ stop_point_type);
   EvRequest [stop_point_list_url stop_point_type] (request_keywords ctx)]
  ++ (if failed then [EvLog ERROR "stop_point_list exception triggered"] else [])
  ++ [EvRelease].

Definition journey_planner_events (ctx : RunContext) (a b : string) : list event :=
  [EvLog INFO ("Retrieving journey plan from naptanId#" +:+ a
               +:+ " to naptanId#" +:+ b);
   EvRequest [journey_planner_url a b] (request_keywords ctx)].

Definition call_ctx (c : tool_call) : RunContext :=
  match c with
  | CallStopPointTypes ctx | CallStopPointList ctx _ | CallJourneyPlanner ctx _ _ => ctx
  end.

(** ** The invariant of the pool *)

Definition holding {A : Type} (t : task A) : nat := if holds t then 1%nat else 0%nat.

(** What holds of a pool grown from [calls]: the i-th task runs the rest of
    the i-th call and keeps the lock discipline, and the lock is held
    exactly when one task is between its [acquire] and its [release]. *)
Definition pool_inv (calls : list tool_call) (s : pool tool_value) : Prop :=
  Forall2 (λ c t, task_disciplined (is_stop_point_list c) t) calls (tasks s)
  ∧ holders (tasks s) = (if API_CALL_LOCK (shared s) then 1 else 0)%nat.

(** ** Sample data *)

Definition camden_town : json :=
  JObj [("commonName", JStr "Camden Town Underground Station");
        ("naptanId", JStr "940GZZLUCTN")].

Definition oxford_circus : json :=
  JObj [("commonName", JStr "Oxford Circus Underground Station");
        ("naptanId", JStr "940GZZLUOXC")].

Definition liverpool_street : json :=
  JObj [("commonName", JStr "Liverpool Street Underground Station");
        ("naptanId", JStr "940GZZLULVT");
        ("modes", JArr [JStr "tube"; JStr "elizabeth-line"])].

Definition metro_stations : list json := [camden_town; oxford_circus].

Definition three_stations : list json :=
  [liverpool_street; oxford_circus; camden_town].

Definition camden_point : json :=
  JObj [("name", JStr "Camden Town Underground Station");
        ("naptanId", JStr "940GZZLUCTN")].

Definition ok_response (body : json) : response :=
  {| status_code := 200; json_body := Some body |}.

Definition server_error (body : json) : response :=
  {| status_code := 500; json_body := Some body |}.

Definition not_found : response :=
  {| status_code := 404; json_body := Some (JObj [("message", JStr "not found")]) |}.

Definition leg (summary : string) : json :=
  JObj [("instruction", JObj [("summary", JStr summary); ("detailed", JStr summary)]);
        ("duration", JNum 4)].

Definition two_journeys : json :=
  JObj [("journeys",
         JArr [JObj [("duration", JNum 21);
                     ("legs", JArr [leg "Walk to Camden Town Underground Station";
                                    leg "Northern line to Moorgate"])];
               JObj [("duration", JNum 25);
                     ("legs", JArr [leg "Walk to Camden Town Underground Station";
                                    leg "Northern line to Bank";
                                    leg "Central line to Liverpool Street"])]])].

Definition keyed_ctx : RunContext :=
  {| deps := {| tfl_api_key := Some "0123456789abcdef" |} |}.

(** The bundle [main] builds when [TFL_API_KEY] is not set. *)
Definition unkeyed_ctx : RunContext := {| deps := main_deps ∅ |}.

(** The headers a caller of [get_tfl_api] might pass. *)
Definition accept_json : gmap string kwarg :=
  {["headers" := KwHeaders {["Accept" := Some "application/json"]}]}.

(** Two lookups of stop points and a journey plan, asked for at once. *)
Definition demo_calls : list tool_call :=
  [CallStopPointList keyed_ctx "NaptanMetroStation";
   CallStopPointList keyed_ctx "NaptanRailStation";
   CallJourneyPlanner keyed_ctx "940GZZLUCTN" "940GZZLULVT"].

(** ** More sample data *)

Definition camden_road_shouting : json :=
  JObj [("commonName", JStr "CAMDEN ROAD Rail Station");
        ("naptanId", JStr "910GCMDNRD")].

Definition camden_road : json :=
  JObj [("commonName", JStr "Camden Road Rail Station");
        ("naptanId", JStr "910GCMDNRD")].

(** A record off the allow-list that has no [naptanId]. *)
Definition nameless_id : json :=
  JObj [("commonName", JStr "Bank Underground Station")].

(** A record on the allow-list that has no [naptanId]. *)
Definition liverpool_without_id : json :=
  JObj [("commonName", JStr "Liverpool Street")].

(** The body the API sends with an error status. *)
Definition api_error_body : json :=
  JObj [("$type", JStr "Tfl.Api.Presentation.Entities.ApiError, Tfl.Api.Presentation.Entities");
        ("httpStatusCode", JNum 500);
        ("message", JStr "An error occurred")].

(** Keywords a caller may pass to [get_tfl_api] besides headers. *)
Definition follow_redirects : gmap string kwarg :=
  {["follow_redirects" := KwOther (JBool true)]}.

Definition teapot : response :=
  {| status_code := 418; json_body := None |}.

(** ** Legs and journeys, one at a time *)

(** The element expression of the set comprehension,
    [leg["instruction"]["summary"]], as the key the set stores. *)
Definition leg_key (leg : json) : result pykey :=
  instruction ← getitem leg "instruction";
  summary ← getitem instruction "summary";
  py_hash summary.

(** The legs the inner loop runs through for a journey option; none when
    [journey["legs"]] cannot be read. *)
Definition legs_of (journey : json) : list json :=
  match getitem journey "legs" ≫= py_iter with
  | Ok ll => ll
  | Err _ => []
  end.

Definition leg_count (journeys : list json) : nat :=
  sum_list ((λ journey, length (legs_of journey)) <$> journeys).

Definition journey_ok (journey : json) : Prop :=
  ∃ legs ll,
    getitem journey "legs" = Ok legs ∧ py_iter legs = Ok ll
    ∧ Forall (λ leg, ∃ k, leg_key leg = Ok k) ll.

(** The second journey option of [two_journeys] before the first. *)
Definition two_journeys_swapped : json :=
  JObj [("journeys",
         JArr [JObj [("duration", JNum 25);
                     ("legs", JArr [leg "Walk to Camden Town Underground Station";
                                    leg "Northern line to Bank";
                                    leg "Central line to Liverpool Street"])];
               JObj [("duration", JNum 21);
                     ("legs", JArr [leg "Walk to Camden Town Underground Station";
                                    leg "Northern line to Moorgate"])]])].

Definition journeys_of (body : json) : list json :=
  match getitem body "journeys" ≫= py_iter with
  | Ok jl => jl
  | Err _ => []
  end.

(** The set [journey_planner] returns for [two_journeys]. *)
Definition two_journeys_summaries : gset pykey :=
  match leg_summaries two_journeys with
  | Ok s => s
  | Err _ => ∅
  end.

(** ** Counting in a trace *)

Definition is_request (ev : event) : bool :=
  match ev with
  | EvRequest _ _ => true
  | _ => false
  end.

Definition is_acquire (ev : event) : bool :=
  match ev with
  | EvAcquire => true
  | _ => false
  end.

Definition is_release (ev : event) : bool :=
  match ev with
  | EvRelease => true
  | _ => false
  end.

Definition count_events (f : event → bool) (evs : list event) : nat :=
  length (List.filter f evs).

Definition guarded_calls (calls : list tool_call) : nat :=
  length (List.filter is_stop_point_list calls).

(** A task whose remaining code has no lock operation. *)
Definition task_lock_free {A : Type} (t : task A) : Prop :=
  match at_point t with
  | Running p => lock_free p
  | Awaiting k => ∀ answer, lock_free (k answer)
  end.

(** A task about to send a request, or waiting for the answer. *)
Definition at_request {A : Type} (t : task A) : bool :=
  match at_point t with
  | Running (ClientGet _ _ _) | Awaiting _ => true
  | _ => false
  end.

(** A task about to release the lock. *)
Definition at_release {A : Type} (t : task A) : bool :=
  match at_point t with
  | Running (LockRelease _) => true
  | _ => false
  end.

(** A client that answers the stop-point lookups with the two stations and
    everything else with the two journeys. *)
Definition demo_client : client_fn :=
  λ args _,
    match args with
    | [url] =>
        if String.prefix "https://api.tfl.gov.uk/StopPoint/Type/" url
        then inr (ok_response (JArr metro_stations))
        else inr (ok_response two_journeys)
    | _ => inl (OtherError "UnsupportedProtocol")
    end.

Definition main_ctx (environ : gmap string string) : RunContext :=
  {| deps := main_deps environ |}.

(** ** Capitals *)

(** The capital of a small ASCII letter; any other character is left. *)
Definition upper_ascii (c : ascii) : ascii :=
  let n := nat_of_ascii c in
  if ((97 <=? n) && (n <=? 122))%nat then ascii_of_nat (n - 32) else c.

Definition is_small_letter (c : ascii) : bool :=
  let n := nat_of_ascii c in ((97 <=? n) && (n <=? 122))%nat.

(** [is_capitalisation needle mid]: [mid] spells [needle], each letter
    small as in [needle] or capital. *)
Fixpoint is_capitalisation (needle mid : string) : bool :=
  match needle, mid with
  | EmptyString, EmptyString => true
  | String c needle', String d mid' =>
      (Ascii.eqb d c || Ascii.eqb d (upper_ascii c)) && is_capitalisation needle' mid'
  | _, _ => false
  end.

(** A record with this name and some identifier. *)
Definition named (name : string) : json :=
  JObj [("commonName", JStr name); ("naptanId", JStr "490000000X")].

(** The address a tool call asks for. *)
Definition call_url (c : tool_call) : string :=
  match c with
  | CallStopPointTypes _ => stop_point_types_url
  | CallStopPointList _ ty => stop_point_list_url ty
  | CallJourneyPlanner _ a b => journey_planner_url a b
  end.

(** A key as an environment may hold it, with a character outside ASCII. *)
Definition environ_with_odd_key : gmap string string :=
  {["TFL_API_KEY" := String (ascii_of_nat 233) "k"]}.

(** * Proofs *)

(** ** Strings *)

Lemma prefix_spec (a b : string) :
  String.prefix a b = true ↔ ∃ post, b = a +:+ post.
Proof.
  revert b. induction a as [|c a IH]; intros b.
  - destruct b; simpl; split; eauto.
  - destruct b as [|d b]; simpl.
    + split; [discriminate | intros [post H]; discriminate].
    + destruct (ascii_dec c d) as [->|Hne].
      * rewrite IH. split; intros [post H]; exists post.
        -- by rewrite H.
        -- by injection H.
      * split; [discriminate | intros [post H]; injection H; congruence].
Qed.

Lemma str_in_spec (needle hay : string) :
  str_in needle hay = true ↔ ∃ pre post, hay = pre +:+ needle +:+ post.
Proof.
  induction hay as [|c hay IH]; cbn [str_in].
  - rewrite orb_false_r, prefix_spec. split.
    + intros [post H]. by exists "", post.
    + intros [pre [post H]]. destruct pre; [by exists post | discriminate].
  - rewrite orb_true_iff, prefix_spec, IH. split.
    + intros [[post H] | [pre [post H]]].
      * by exists "", post.
      * exists (String c pre), post. simpl. by rewrite H.
    + intros [pre [post H]]. destruct pre as [|d pre]; simpl in H.
      * left. by exists post.
      * right. exists pre, post. by injection H.
Qed.

Lemma lower_app (a b : string) : lower (a +:+ b) = lower a +:+ lower b.
Proof. induction a as [|c a IH]; simpl; [done | by rewrite IH]. Qed.

Lemma lower_split (s a b : string) :
  lower s = a +:+ b → ∃ a' b', s = a' +:+ b' ∧ lower a' = a ∧ lower b' = b.
Proof.
  revert s. induction a as [|c a IH]; intros s H.
  - by exists "", s.
  - destruct s as [|d s]; [discriminate |]. simpl in H.
    injection H as Hc Hs. destruct (IH _ Hs) as (a' & b' & -> & <- & <-).
    exists (String d a'), b'. simpl. by rewrite Hc.
Qed.

(** The test the code runs is the case-insensitive match of the
    specification. *)
Lemma str_in_lower (needle name : string) :
  str_in needle (lower name) = true ↔ contains_ignoring_case needle name.
Proof.
  rewrite str_in_spec. unfold contains_ignoring_case. split.
  - intros (pre & post & H).
    apply lower_split in H as (pre' & rest & -> & _ & H).
    apply lower_split in H as (mid & post' & -> & H & _).
    by exists pre', mid, post'.
  - intros (pre & mid & post & -> & <-).
    exists (lower pre), (lower post). by rewrite !lower_app.
Qed.

Lemma on_allow_list_spec (name : string) :
  on_allow_list name ↔
  str_in "camden" (lower name) || str_in "liverpool" (lower name) = true.
Proof.
  rewrite orb_true_iff, !str_in_lower. unfold on_allow_list, allow_list. split.
  - intros (needle & Hin & H).
    apply elem_of_cons in Hin as [-> | Hin]; [by left |].
    apply list_elem_of_singleton in Hin as ->. by right.
  - intros [H | H]; eexists; (split; [| exact H]); set_solver.
Qed.

(** ** The comprehension of [stop_point_list] *)

Lemma result_bind_Ok {A B : Type} (m : result A) (f : A → result B) (b : B) :
  m ≫= f = Ok b → ∃ a, m = Ok a ∧ f a = Ok b.
Proof. destruct m as [a|e]; simpl; [eauto | discriminate]. Qed.

Lemma keep_Ok (sp : json) (b : bool) :
  keep sp = Ok b →
  ∃ name, common_name sp = Some name ∧ (b = true ↔ on_allow_list name).
Proof.
  unfold keep, common_name. destruct (getitem sp "commonName") as [v|e]; simpl;
    [| discriminate].
  destruct v; simpl; try discriminate.
  intros H. exists s. split; [done |]. rewrite on_allow_list_spec.
  destruct (str_in "camden" (lower s)); simpl in *; [by inversion H |].
  inversion H. done.
Qed.

Lemma keep_record (sp : json) (name : string) :
  common_name sp = Some name →
  keep sp = Ok (str_in "camden" (lower name) || str_in "liverpool" (lower name)).
Proof.
  unfold keep, common_name. destruct (getitem sp "commonName") as [v|e]; [| done].
  destruct v; try done. intros [= ->]. simpl.
  by destruct (str_in "camden" (lower name)).
Qed.

Lemma project_record (sp : json) (name : string) (ident : json) :
  common_name sp = Some name → naptan_id sp = Some ident →
  project sp = Ok (stop_point name ident).
Proof.
  unfold project, common_name, naptan_id.
  destruct (getitem sp "commonName") as [v|e]; [| done].
  destruct v; try done. intros [= ->].
  destruct (getitem sp "naptanId") as [i|e]; [| done]. by intros [= ->].
Qed.

Lemma project_Ok (sp rec : json) (name : string) :
  common_name sp = Some name → project sp = Ok rec →
  ∃ ident, naptan_id sp = Some ident ∧ rec = stop_point name ident.
Proof.
  unfold project, common_name, naptan_id.
  destruct (getitem sp "commonName") as [v|e]; [| done].
  destruct v; try done. intros [= ->]. simpl.
  destruct (getitem sp "naptanId") as [i|e]; simpl; [| done].
  intros [= <-]. by exists i.
Qed.

Lemma comprehension_selects (items out : list json) :
  stop_point_comprehension items = Ok out → selects items out.
Proof.
  revert out. induction items as [|sp items IH]; intros out; simpl.
  - intros [= <-]. constructor.
  - intros H. apply result_bind_Ok in H as (b & Hk & H).
    apply keep_Ok in Hk as (name & Hn & Hb). destruct b.
    + apply result_bind_Ok in H as (rec & Hp & H).
      apply result_bind_Ok in H as (ps & Hps & [= <-]).
      destruct (project_Ok _ _ _ Hn Hp) as (ident & Hi & ->).
      apply selects_keep; [done | by apply Hb | done | by apply IH].
    + apply selects_skip with name; [done | | by apply IH].
      intros Hon. apply Hb in Hon. discriminate.
Qed.

Lemma comprehension_total (items : list json) :
  Forall (λ sp, is_stop_point_record sp = true) items →
  ∃ out, stop_point_comprehension items = Ok out.
Proof.
  induction 1 as [|sp items Hsp _ [out IH]]; simpl; [by eexists |].
  unfold is_stop_point_record in Hsp.
  destruct (common_name sp) as [name|] eqn:Hn; [| done].
  destruct (naptan_id sp) as [ident|] eqn:Hi; [| done].
  rewrite (keep_record _ _ Hn). simpl.
  destruct (_ || _); [| by eexists].
  rewrite (project_record _ _ _ Hn Hi), IH. simpl. by eexists.
Qed.

Lemma selects_elem_of (items out : list json) (rec : json) :
  selects items out →
  rec ∈ out ↔
  ∃ sp name ident,
    sp ∈ items ∧ common_name sp = Some name ∧ on_allow_list name
    ∧ naptan_id sp = Some ident ∧ rec = stop_point name ident.
Proof.
  induction 1 as [|sp name ident items out Hn Hon Hi _ IH
                  |sp name items out Hn Hoff _ IH].
  - split; [by intros ?%elem_of_nil |].
    by intros (sp & _ & _ & ?%elem_of_nil & _).
  - rewrite elem_of_cons, IH. split.
    + intros [-> | (sp' & n & i & Hin & H)].
      * exists sp, name, ident. split; [left | done].
      * exists sp', n, i. split; [by right | done].
    + intros (sp' & n & i & [-> | Hin]%elem_of_cons & Hn' & Hon' & Hi' & ->).
      * left. congruence.
      * right. by exists sp', n, i.
  - rewrite IH. split.
    + intros (sp' & n & i & Hin & H). exists sp', n, i. split; [by right | done].
    + intros (sp' & n & i & [-> | Hin]%elem_of_cons & Hn' & Hon' & Hi' & ->).
      * congruence.
      * by exists sp', n, i.
Qed.

Lemma StronglySorted_lt_S (l : list nat) :
  StronglySorted lt l → StronglySorted lt (S <$> l).
Proof.
  induction 1 as [|x l _ IH Hx]; simpl; constructor; [done |].
  apply Forall_fmap. eapply Forall_impl; [exact Hx |]. simpl. lia.
Qed.

Lemma picked_shift (sp : json) (items out : list json) (picks : list nat) :
  (∀ name, common_name sp = Some name → ¬ on_allow_list name) →
  picked items out picks → picked (sp :: items) out (S <$> picks).
Proof.
  intros Hoff (Hs & Hl & Hk & Hall). repeat split.
  - by apply StronglySorted_lt_S.
  - by rewrite length_fmap.
  - intros k i Hki. rewrite list_lookup_fmap in Hki.
    destruct (picks !! k) as [j|] eqn:Hj; [| done]. injection Hki as <-.
    destruct (Hk _ _ Hj) as (sp' & n & id & H). by exists sp', n, id.
  - intros [|i] sp' n Hi Hn Hon; simpl in Hi.
    + injection Hi as <-. by destruct (Hoff _ Hn).
    + apply list_elem_of_fmap. exists i. split; [done | by eapply Hall].
Qed.

Lemma selects_picked (items out : list json) :
  selects items out → ∃ picks, picked items out picks.
Proof.
  induction 1 as [|sp name ident items out Hn Hon Hi _ [picks IH]
                  |sp name items out Hn Hoff _ [picks IH]].
  - exists []. repeat split; [constructor | | ]; intros *; by rewrite ?lookup_nil.
  - exists (0%nat :: (S <$> picks)).
    destruct IH as (Hs & Hl & Hk & Hall). repeat split.
    + constructor; [by apply StronglySorted_lt_S |].
      apply Forall_fmap, Forall_true. simpl. lia.
    + simpl. by rewrite length_fmap, Hl.
    + intros [|k] i Hki; simpl in Hki.
      * injection Hki as <-. by exists sp, name, ident.
      * rewrite list_lookup_fmap in Hki.
        destruct (picks !! k) as [j|] eqn:Hj; [| done]. injection Hki as <-.
        destruct (Hk _ _ Hj) as (sp' & n & id & H). by exists sp', n, id.
    + intros [|i] sp' n Hi' Hn' Hon'; simpl in Hi'; [left |].
      right. apply list_elem_of_fmap. exists i. split; [done | by eapply Hall].
  - exists (S <$> picks). apply picked_shift; [| done].
    intros n Hn'. congruence.
Qed.

(** ** What the tools ask of the client *)

Lemma get_tfl_api_plain (ctx : RunContext) (args : list string) :
  get_tfl_api ctx args ∅ =
  ClientGet args (request_keywords ctx)
    (λ answer, match answer with
               | inl e => Raise e
               | inr r => Ret r
               end).
Proof.
  unfold get_tfl_api, merged_headers, call_keywords, request_keywords.
  rewrite !lookup_empty. simpl. by rewrite insert_empty.
Qed.

Lemma run_lift {A : Type} (client : client_fn) (res : result A) (w : world) :
  run client (lift res) w = (of_result res, w).
Proof. by destruct res. Qed.

Lemma world_eq (w w' : world) :
  API_CALL_LOCK w = API_CALL_LOCK w' →
  STOP_TYPES_CACHE w = STOP_TYPES_CACHE w' →
  trace w = trace w' →
  w = w'.
Proof. destruct w, w'. simpl. by intros -> -> ->. Qed.

Ltac world_eq :=
  apply world_eq;
  unfold journey_planner_events, stop_point_types_events, journey_planner_url;
  simpl; rewrite <- ?app_assoc; simpl; congruence.

(** The four ways through [stop_point_list], for a call that finds the lock
    free. *)
Lemma run_stop_point_list_raised client ctx ty w e :
  API_CALL_LOCK w = false →
  client [stop_point_list_url ty] (request_keywords ctx) = inl e →
  run client (stop_point_list ctx ty) w =
  (Raised e, with_trace w (stop_point_list_events ctx ty false)).
Proof.
  intros Hw Hc. unfold stop_point_list, async_with_lock, log.
  rewrite get_tfl_api_plain. cbn -[String.append]. rewrite Hw.
  fold (stop_point_list_url ty). rewrite Hc. cbn -[String.append].
  f_equal. world_eq.
Qed.

Lemma run_stop_point_list_success client ctx ty w r :
  API_CALL_LOCK w = false →
  client [stop_point_list_url ty] (request_keywords ctx) = inr r →
  is_success r = true →
  run client (stop_point_list ctx ty) w =
  (of_result (body ← response_json r; filter_stop_points body),
   with_trace w (stop_point_list_events ctx ty false)).
Proof.
  intros Hw Hc Hs. unfold stop_point_list, async_with_lock, log.
  rewrite get_tfl_api_plain. cbn -[String.append]. rewrite Hw.
  fold (stop_point_list_url ty). rewrite Hc. cbn -[String.append].
  unfold raise_for_status. rewrite Hs. cbn -[String.append].
  rewrite run_lift. f_equal. world_eq.
Qed.

Lemma run_stop_point_list_404 client ctx ty w r :
  API_CALL_LOCK w = false →
  client [stop_point_list_url ty] (request_keywords ctx) = inr r →
  status_code r = 404 →
  run client (stop_point_list ctx ty) w =
  (Raised (ModelRetry "invalid stop point type provided!"),
   with_trace w (stop_point_list_events ctx ty true)).
Proof.
  intros Hw Hc Hs. unfold stop_point_list, async_with_lock, log.
  rewrite get_tfl_api_plain. cbn -[String.append]. rewrite Hw.
  fold (stop_point_list_url ty). rewrite Hc. cbn -[String.append].
  unfold raise_for_status, is_success. rewrite Hs. cbn -[String.append].
  f_equal. world_eq.
Qed.

Lemma run_stop_point_list_other client ctx ty w r :
  API_CALL_LOCK w = false →
  client [stop_point_list_url ty] (request_keywords ctx) = inr r →
  is_success r = false →
  status_code r ≠ 404 →
  run client (stop_point_list ctx ty) w =
  (of_result (body ← response_json r; filter_stop_points body),
   with_trace w (stop_point_list_events ctx ty true)).
Proof.
  intros Hw Hc Hs Hn. unfold stop_point_list, async_with_lock, log.
  rewrite get_tfl_api_plain. cbn -[String.append]. rewrite Hw.
  fold (stop_point_list_url ty). rewrite Hc. cbn -[String.append].
  unfold raise_for_status. rewrite Hs. cbn -[String.append].
  apply Z.eqb_neq in Hn. rewrite Hn. cbn -[String.append].
  rewrite run_lift. f_equal. world_eq.
Qed.

Lemma run_stop_point_list_waiting client ctx ty w :
  API_CALL_LOCK w = true →
  run client (stop_point_list ctx ty) w = (Waiting, w).
Proof.
  intros Hw. unfold stop_point_list, async_with_lock. simpl. by rewrite Hw.
Qed.

Lemma run_stop_point_list_returned client ctx ty w out :
  fst (run client (stop_point_list ctx ty) w) = Returned out →
  ∃ r body items,
    client [stop_point_list_url ty] (request_keywords ctx) = inr r
    ∧ json_body r = Some body ∧ py_iter body = Ok items
    ∧ stop_point_comprehension items = Ok out.
Proof.
  destruct (API_CALL_LOCK w) eqn:Hw.
  { by rewrite run_stop_point_list_waiting. }
  destruct (client [stop_point_list_url ty] (request_keywords ctx))
    as [e|r] eqn:Hc.
  { by rewrite (run_stop_point_list_raised _ _ _ _ e). }
  assert (of_result (body ← response_json r; filter_stop_points body)
          = Returned out →
          ∃ body items, json_body r = Some body ∧ py_iter body = Ok items
                        ∧ stop_point_comprehension items = Ok out) as Hres.
  { unfold response_json, filter_stop_points.
    destruct (json_body r) as [body|]; simpl; [| done].
    destruct (py_iter body) as [items|] eqn:Hit; simpl; [| done].
    destruct (stop_point_comprehension items) as [out'|] eqn:Hout; simpl; [| done].
    intros [= ->]. by exists body, items. }
  destruct (is_success r) eqn:Hs.
  { rewrite (run_stop_point_list_success _ _ _ _ r) by done. simpl.
    intros (body & items & H)%Hres. by exists r, body, items. }
  destruct (decide (status_code r = 404)) as [H404|H404].
  { by rewrite (run_stop_point_list_404 _ _ _ _ r). }
  rewrite (run_stop_point_list_other _ _ _ _ r) by done. simpl.
  intros (body & items & H)%Hres. by exists r, body, items.
Qed.

Lemma run_stop_point_list_records client ctx ty w r items :
  API_CALL_LOCK w = false →
  client [stop_point_list_url ty] (request_keywords ctx) = inr r →
  is_success r = true →
  json_body r = Some (JArr items) →
  forallb is_stop_point_record items = true →
  ∃ out, fst (run client (stop_point_list ctx ty) w) = Returned out
         ∧ selects items out.
Proof.
  intros Hw Hc Hs Hb Hrec.
  rewrite (run_stop_point_list_success _ _ _ _ r) by done.
  unfold response_json, filter_stop_points. rewrite Hb. simpl.
  destruct (comprehension_total items) as [out Hout].
  { apply Forall_forall. intros sp Hsp%list_elem_of_In.
    rewrite forallb_forall in Hrec. by apply Hrec. }
  rewrite Hout. exists out. split; [done | by apply comprehension_selects].
Qed.

(** ** The claims about [stop_point_list] *)

(** C1. A 404 raises [ModelRetry], but another failing status is not
    fatal: the [except] clause ends without raising again, and the tool goes
    on to filter the body of the failed response.  Here a 500 response whose
    body is an array of records makes [stop_point_list] return the Camden
    record, where [stop_point_types] on the same response raises
    [HTTPStatusError]. *)
Theorem stop_point_list_500_returns_records :
  fst (run (replying (server_error (JArr metro_stations)))
           (stop_point_list keyed_ctx "NaptanMetroStation") initial_world)
  = Returned [stop_point "Camden Town Underground Station" (JStr "940GZZLUCTN")]
  ∧ fst (run (replying (server_error (JArr metro_stations)))
             (stop_point_types keyed_ctx) initial_world)
    = Raised (HTTPStatusError 500)
  ∧ fst (run (replying not_found)
             (stop_point_list keyed_ctx "NaptanMetroStation") initial_world)
    = Raised (ModelRetry "invalid stop point type provided!").
Proof. repeat split; vm_compute; reflexivity. Qed.

(** C2. On a successful response whose body is an array of stop-point
    records, [stop_point_list] returns, and a record is in the returned list
    exactly when it is the [{name, naptanId}] projection of a raw record
    whose name contains "camden" or "liverpool", capitals ignored. *)
Theorem stop_point_list_filters client ctx ty w r items :
  API_CALL_LOCK w = false →
  client [stop_point_list_url ty] (request_keywords ctx) = inr r →
  is_success r = true →
  json_body r = Some (JArr items) →
  forallb is_stop_point_record items = true →
  ∃ out,
    fst (run client (stop_point_list ctx ty) w) = Returned out
    ∧ ∀ rec, rec ∈ out ↔
        ∃ sp name ident,
          sp ∈ items ∧ common_name sp = Some name ∧ on_allow_list name
          ∧ naptan_id sp = Some ident ∧ rec = stop_point name ident.
Proof.
  intros Hw Hc Hs Hb Hrec.
  destruct (run_stop_point_list_records _ _ _ _ _ _ Hw Hc Hs Hb Hrec)
    as (out & Hout & Hsel).
  exists out. split; [done |]. intros rec. by apply selects_elem_of.
Qed.

(** The scenario of C2: the two stations, of which Camden Town alone is
    returned. *)
Lemma stop_point_list_filters_witness :
  API_CALL_LOCK initial_world = false
  ∧ is_success (ok_response (JArr metro_stations)) = true
  ∧ forallb is_stop_point_record metro_stations = true
  ∧ fst (run (replying (ok_response (JArr metro_stations)))
             (stop_point_list keyed_ctx "NaptanMetroStation") initial_world)
    = Returned [stop_point "Camden Town Underground Station" (JStr "940GZZLUCTN")]
  ∧ ∃ out,
      fst (run (replying (ok_response (JArr metro_stations)))
               (stop_point_list keyed_ctx "NaptanMetroStation") initial_world)
      = Returned out
      ∧ ∀ rec, rec ∈ out ↔
          ∃ sp name ident,
            sp ∈ metro_stations ∧ common_name sp = Some name ∧ on_allow_list name
            ∧ naptan_id sp = Some ident ∧ rec = stop_point name ident.
Proof.
  split; [reflexivity |]. split; [reflexivity |]. split; [reflexivity |].
  split; [vm_compute; reflexivity |].
  apply (stop_point_list_filters (replying (ok_response (JArr metro_stations)))
           keyed_ctx "NaptanMetroStation" initial_world
           (ok_response (JArr metro_stations)) metro_stations);
    reflexivity.
Defined.

(** C3. Every record [stop_point_list] returns has both fields: a [name]
    that is a string and a [naptanId], the two taken from one raw record of
    the body. *)
Theorem stop_point_list_records_complete client ctx ty w out rec :
  fst (run client (stop_point_list ctx ty) w) = Returned out →
  rec ∈ out →
  ∃ name ident,
    getitem rec "name" = Ok (JStr name)
    ∧ getitem rec "naptanId" = Ok ident
    ∧ rec = stop_point name ident
    ∧ ∃ r body items sp,
        client [stop_point_list_url ty] (request_keywords ctx) = inr r
        ∧ json_body r = Some body ∧ py_iter body = Ok items ∧ sp ∈ items
        ∧ common_name sp = Some name ∧ naptan_id sp = Some ident.
Proof.
  intros (r & body & items & Hc & Hb & Hit & Hout)%run_stop_point_list_returned Hin.
  apply comprehension_selects in Hout.
  apply (selects_elem_of _ _ rec Hout) in Hin
    as (sp & name & ident & Hsp & Hn & _ & Hi & ->).
  exists name, ident. repeat split. by exists r, body, items, sp.
Qed.

Lemma stop_point_list_records_complete_witness :
  fst (run (replying (ok_response (JArr metro_stations)))
           (stop_point_list keyed_ctx "NaptanMetroStation") initial_world)
  = Returned [camden_point]
  ∧ camden_point ∈ [camden_point]
  ∧ ∃ name ident,
      getitem camden_point "name" = Ok (JStr name)
      ∧ getitem camden_point "naptanId" = Ok ident
      ∧ camden_point = stop_point name ident
      ∧ ∃ r body items sp,
          replying (ok_response (JArr metro_stations))
            [stop_point_list_url "NaptanMetroStation"] (request_keywords keyed_ctx)
          = inr r
          ∧ json_body r = Some body ∧ py_iter body = Ok items ∧ sp ∈ items
          ∧ common_name sp = Some name ∧ naptan_id sp = Some ident.
Proof.
  split; [vm_compute; reflexivity |]. split; [apply list_elem_of_here |].
  apply (stop_point_list_records_complete
           (replying (ok_response (JArr metro_stations)))
           keyed_ctx "NaptanMetroStation" initial_world [camden_point] camden_point).
  - vm_compute. reflexivity.
  - apply list_elem_of_here.
Defined.

(** C10. The returned list keeps the order of the raw records: its k-th
    element is the projection of the k-th record on the allow-list, each
    such record is used once and none is added. *)
Theorem stop_point_list_keeps_order client ctx ty w r items :
  API_CALL_LOCK w = false →
  client [stop_point_list_url ty] (request_keywords ctx) = inr r →
  is_success r = true →
  json_body r = Some (JArr items) →
  forallb is_stop_point_record items = true →
  ∃ out picks,
    fst (run client (stop_point_list ctx ty) w) = Returned out
    ∧ picked items out picks.
Proof.
  intros Hw Hc Hs Hb Hrec.
  destruct (run_stop_point_list_records _ _ _ _ _ _ Hw Hc Hs Hb Hrec)
    as (out & Hout & Hsel).
  destruct (selects_picked _ _ Hsel) as [picks Hp]. by exists out, picks.
Qed.

Lemma stop_point_list_keeps_order_witness :
  API_CALL_LOCK initial_world = false
  ∧ is_success (ok_response (JArr three_stations)) = true
  ∧ forallb is_stop_point_record three_stations = true
  ∧ fst (run (replying (ok_response (JArr three_stations)))
             (stop_point_list keyed_ctx "NaptanMetroStation") initial_world)
    = Returned [stop_point "Liverpool Street Underground Station" (JStr "940GZZLULVT");
                stop_point "Camden Town Underground Station" (JStr "940GZZLUCTN")]
  ∧ ∃ out picks,
      fst (run (replying (ok_response (JArr three_stations)))
               (stop_point_list keyed_ctx "NaptanMetroStation") initial_world)
      = Returned out
      ∧ picked three_stations out picks.
Proof.
  split; [reflexivity |]. split; [reflexivity |]. split; [reflexivity |].
  split; [vm_compute; reflexivity |].
  apply (stop_point_list_keeps_order
           (replying (ok_response (JArr three_stations)))
           keyed_ctx "NaptanMetroStation" initial_world
           (ok_response (JArr three_stations)) three_stations);
    reflexivity.
Defined.

(** ** The lock *)

Lemma run_bind {A B : Type} (client : client_fn) (p : prog A) (f : A → prog B)
    (w : world) :
  run client (p ≫= f) w =
  match run client p w with
  | (Returned a, w') => run client (f a) w'
  | (Raised e, w') => (Raised e, w')
  | (Waiting, w') => (Waiting, w')
  end.
Proof.
  revert w. induction p as [a|e|k IH|k IH|lvl msg k IH|args kw k IH|key k IH|key v k IH];
    intros w; simpl; try destruct (API_CALL_LOCK w); done || apply IH.
Qed.

Lemma releasing_releases {A : Type} (client : client_fn) (body : prog A) (w : world) :
  lock_free body →
  API_CALL_LOCK w = true →
  fst (run client (releasing body) w) ≠ Waiting
  ∧ API_CALL_LOCK (snd (run client (releasing body) w)) = false.
Proof.
  revert w. induction body as [a|e|k IH|k IH|lvl msg k IH|args kw k IH|key k IH|key v k IH];
    intros w Hfree Hw; simpl in *; try done;
    try (by rewrite Hw); by apply IH.
Qed.

(** The contract of [async with API_CALL_LOCK]: whatever a body that leaves
    the lock alone does, and however it ends, the lock is free afterwards. *)
Lemma async_with_lock_releases {A : Type} (client : client_fn) (body : prog A)
    (w : world) :
  lock_free body →
  API_CALL_LOCK w = false →
  fst (run client (async_with_lock body) w) ≠ Waiting
  ∧ API_CALL_LOCK (snd (run client (async_with_lock body) w)) = false.
Proof.
  intros Hfree Hw. unfold async_with_lock. simpl. rewrite Hw.
  by apply releasing_releases.
Qed.

Lemma of_result_not_waiting {A : Type} (r : result A) : of_result r ≠ Waiting.
Proof. by destruct r. Qed.

(** C5. A call of [stop_point_list] that gets the lock gives it back on
    every way out: whether the client raises, the status is 404, another
    failing status or a success, the call ends (it is not left waiting), the
    lock is free at the end, and the trace of the call starts with the
    acquisition and ends with the release. *)
Theorem stop_point_list_releases_lock client ctx ty w :
  API_CALL_LOCK w = false →
  fst (run client (stop_point_list ctx ty) w) ≠ Waiting
  ∧ API_CALL_LOCK (snd (run client (stop_point_list ctx ty) w)) = false
  ∧ ∃ failed,
      trace (snd (run client (stop_point_list ctx ty) w))
      = (trace w ++ stop_point_list_events ctx ty failed)%list.
Proof.
  intros Hw.
  destruct (client [stop_point_list_url ty] (request_keywords ctx))
    as [e|r] eqn:Hc.
  { rewrite (run_stop_point_list_raised _ _ _ _ e) by done. simpl.
    repeat split; [done | done | by exists false]. }
  destruct (is_success r) eqn:Hs.
  { rewrite (run_stop_point_list_success _ _ _ _ r) by done. simpl.
    repeat split; [apply of_result_not_waiting | done | by exists false]. }
  destruct (decide (status_code r = 404)) as [H404|H404].
  { rewrite (run_stop_point_list_404 _ _ _ _ r) by done. simpl.
    repeat split; [done | done | by exists true]. }
  rewrite (run_stop_point_list_other _ _ _ _ r) by done. simpl.
  repeat split; [apply of_result_not_waiting | done | by exists true].
Qed.

(** The 404 exit of C5, from the initial state of the module. *)
Lemma stop_point_list_releases_lock_witness :
  API_CALL_LOCK initial_world = false
  ∧ fst (run (replying not_found) (stop_point_list keyed_ctx "NoSuchType")
             initial_world)
    = Raised (ModelRetry "invalid stop point type provided!")
  ∧ fst (run (replying not_found) (stop_point_list keyed_ctx "NoSuchType")
             initial_world) ≠ Waiting
  ∧ API_CALL_LOCK (snd (run (replying not_found)
                            (stop_point_list keyed_ctx "NoSuchType")
                            initial_world)) = false
  ∧ ∃ failed,
      trace (snd (run (replying not_found)
                      (stop_point_list keyed_ctx "NoSuchType") initial_world))
      = (trace initial_world
         ++ stop_point_list_events keyed_ctx "NoSuchType" failed)%list.
Proof.
  split; [reflexivity |]. split; [vm_compute; reflexivity |].
  apply (stop_point_list_releases_lock (replying not_found) keyed_ctx
           "NoSuchType" initial_world).
  reflexivity.
Defined.

(** ** [journey_planner] *)

Lemma run_journey_planner client ctx a b w :
  run client (journey_planner ctx a b) w =
  (match client [journey_planner_url a b] (request_keywords ctx) with
   | inl e => Raised e
   | inr r =>
       of_result (raise_for_status r;; body ← response_json r; leg_summaries body)
   end,
   with_trace w (journey_planner_events ctx a b)).
Proof.
  unfold journey_planner, log. rewrite get_tfl_api_plain.
  cbn -[String.append]. fold (journey_planner_url a b).
  destruct (client _ _) as [e|r]; cbn -[String.append].
  - f_equal. world_eq.
  - destruct (raise_for_status r) as [[]|e]; cbn -[String.append].
    + rewrite run_lift. f_equal. world_eq.
    + f_equal. world_eq.
Qed.

Lemma legs_into_spec (ll : list json) (acc s : gset pykey) :
  legs_into acc ll = Ok s →
  ∀ k, k ∈ s ↔
       k ∈ acc
       ∨ ∃ leg instruction v,
           leg ∈ ll ∧ getitem leg "instruction" = Ok instruction
           ∧ getitem instruction "summary" = Ok v ∧ py_hash v = Ok k.
Proof.
  revert acc. induction ll as [|leg ll IH]; intros acc; simpl.
  - intros [= <-] k. split; [by left |].
    intros [H | (leg & _ & _ & ?%elem_of_nil & _)]; done.
  - intros H.
    apply result_bind_Ok in H as (instruction & Hi & H).
    apply result_bind_Ok in H as (v & Hv & H).
    apply result_bind_Ok in H as (k0 & Hk0 & H).
    intros k. rewrite (IH _ H k), elem_of_union, elem_of_singleton. split.
    + intros [[-> | Hacc] | (leg' & i' & v' & Hin & Hrest)].
      * right. exists leg, instruction, v. split; [left | done].
      * by left.
      * right. exists leg', i', v'. split; [by right | done].
    + intros [Hacc | (leg' & i' & v' & [-> | Hin]%elem_of_cons & Hi' & Hv' & Hk')].
      * left. by right.
      * left. left. congruence.
      * right. by exists leg', i', v'.
Qed.

Lemma journeys_into_spec (jl : list json) (acc s : gset pykey) :
  journeys_into acc jl = Ok s →
  ∀ k, k ∈ s ↔
       k ∈ acc
       ∨ ∃ journey legs ll leg instruction v,
           journey ∈ jl ∧ getitem journey "legs" = Ok legs ∧ py_iter legs = Ok ll
           ∧ leg ∈ ll ∧ getitem leg "instruction" = Ok instruction
           ∧ getitem instruction "summary" = Ok v ∧ py_hash v = Ok k.
Proof.
  revert acc. induction jl as [|journey jl IH]; intros acc; simpl.
  - intros [= <-] k. split; [by left |].
    intros [H | (j & _ & _ & _ & _ & _ & ?%elem_of_nil & _)]; done.
  - intros H.
    apply result_bind_Ok in H as (legs & Hlegs & H).
    apply result_bind_Ok in H as (ll & Hll & H).
    apply result_bind_Ok in H as (acc' & Hacc' & H).
    intros k. rewrite (IH _ H k), (legs_into_spec _ _ _ Hacc' k). split.
    + intros [[Hacc | (leg & i & v & Hin & Hrest)]
             | (j' & legs' & ll' & leg & i & v & Hin & Hrest)].
      * by left.
      * right. exists journey, legs, ll, leg, i, v. split; [left | done].
      * right. exists j', legs', ll', leg, i, v. split; [by right | done].
    + intros [Hacc | (j' & legs' & ll' & leg & i & v
                      & [-> | Hin]%elem_of_cons & Hlegs' & Hll' & Hrest)].
      * left. by left.
      * left. right. exists leg, i, v.
        rewrite Hlegs in Hlegs'. injection Hlegs' as <-.
        rewrite Hll in Hll'. by injection Hll' as <-.
      * right. by exists j', legs', ll', leg, i, v.
Qed.

(** Whatever the body, when the comprehension returns a set, its keys are
    those of the leg summaries of the body. *)
Lemma leg_summaries_spec (body : json) (s : gset pykey) :
  leg_summaries body = Ok s →
  ∀ k, k ∈ s ↔ ∃ v, leg_summary body v ∧ py_hash v = Ok k.
Proof.
  unfold leg_summaries, leg_summary. intros H.
  apply result_bind_Ok in H as (journeys & Hj & H).
  apply result_bind_Ok in H as (jl & Hjl & H).
  intros k. rewrite (journeys_into_spec _ _ _ H k). split.
  - intros [?%not_elem_of_empty | (j & legs & ll & leg & i & v & Hrest)]; [done |].
    destruct Hrest as (Hin & Hlegs & Hll & Hleg & Hi & Hv & Hk).
    exists v. split; [| done].
    by exists journeys, jl, j, legs, ll, leg, i.
  - intros (v & (journeys' & jl' & j & legs & ll & leg & i
                 & Hj' & Hjl' & Hin & Hlegs & Hll & Hleg & Hi & Hv) & Hk).
    right. exists j, legs, ll, leg, i, v.
    rewrite Hj in Hj'. injection Hj' as <-.
    rewrite Hjl in Hjl'. by injection Hjl' as <-.
Qed.

Lemma legs_into_total (ll : list json) (acc : gset pykey) :
  forallb is_leg ll = true →
  (∀ k, k ∈ acc → ∃ s, k = KStr s) →
  ∃ s, legs_into acc ll = Ok s ∧ ∀ k, k ∈ s → ∃ s', k = KStr s'.
Proof.
  revert acc. induction ll as [|leg ll IH]; intros acc Hll Hacc; simpl.
  - by exists acc.
  - simpl in Hll. apply andb_true_iff in Hll as [Hleg Hll].
    unfold is_leg in Hleg.
    destruct (getitem leg "instruction") as [i|]; [simpl | done].
    destruct (getitem i "summary") as [v|]; [simpl | done].
    destruct v; try done. simpl. apply IH; [done |].
    intros k [->%elem_of_singleton | Hk]%elem_of_union; [by eexists | by apply Hacc].
Qed.

Lemma journeys_into_total (jl : list json) (acc : gset pykey) :
  forallb is_journey jl = true →
  (∀ k, k ∈ acc → ∃ s, k = KStr s) →
  ∃ s, journeys_into acc jl = Ok s ∧ ∀ k, k ∈ s → ∃ s', k = KStr s'.
Proof.
  revert acc. induction jl as [|j jl IH]; intros acc Hjl Hacc; simpl.
  - by exists acc.
  - simpl in Hjl. apply andb_true_iff in Hjl as [Hj Hjl].
    unfold is_journey in Hj.
    destruct (getitem j "legs") as [legs|]; [simpl | done].
    destruct legs; try done. simpl.
    destruct (legs_into_total _ acc Hj Hacc) as (acc' & -> & Hacc'). simpl.
    by apply IH.
Qed.

Lemma leg_summaries_total (body : json) :
  is_journey_body body = true →
  ∃ s, leg_summaries body = Ok s ∧ ∀ k, k ∈ s → ∃ s', k = KStr s'.
Proof.
  unfold is_journey_body, leg_summaries. intros H.
  destruct (getitem body "journeys") as [journeys|]; [simpl | done].
  destruct journeys; try done. simpl.
  apply journeys_into_total; [done |]. by intros k ?%not_elem_of_empty.
Qed.

Lemma py_hash_KStr (v : json) (s : string) : py_hash v = Ok (KStr s) ↔ v = JStr s.
Proof.
  split; [| by intros ->].
  destruct v; simpl; intros H; inversion H; done.
Qed.

(** C4. On a successful response with a journey body, [journey_planner]
    returns a set; a string is in it exactly when it is the instruction
    summary of some leg of some journey option of the body; the set holds
    strings only, and listing it shows none twice. *)
Theorem journey_planner_unique_summaries client ctx a b w r body :
  client [journey_planner_url a b] (request_keywords ctx) = inr r →
  is_success r = true →
  json_body r = Some body →
  is_journey_body body = true →
  ∃ summaries : gset pykey,
    fst (run client (journey_planner ctx a b) w) = Returned summaries
    ∧ (∀ s, KStr s ∈ summaries ↔ leg_summary body (JStr s))
    ∧ (∀ k, k ∈ summaries → ∃ s, k = KStr s)
    ∧ NoDup (elements summaries).
Proof.
  intros Hc Hs Hb Hbody.
  destruct (leg_summaries_total body Hbody) as (summaries & Hsum & Hstr).
  exists summaries. rewrite run_journey_planner, Hc. simpl.
  unfold raise_for_status, response_json. rewrite Hs, Hb. simpl. rewrite Hsum.
  repeat split; try done.
  - intros (v & Hv & ->%py_hash_KStr)%(leg_summaries_spec _ _ Hsum). done.
  - intros Hv. apply (leg_summaries_spec _ _ Hsum). by exists (JStr s).
  - apply NoDup_elements.
Qed.

(** The scenario of C4: two journey options that both start with the walk
    to Camden Town; the returned set lists that summary once. *)
Lemma journey_planner_unique_summaries_witness :
  is_success (ok_response two_journeys) = true
  ∧ is_journey_body two_journeys = true
  ∧ match fst (run (replying (ok_response two_journeys))
                   (journey_planner keyed_ctx "940GZZLUCTN" "940GZZLULVT")
                   initial_world) with
    | Returned summaries =>
        length (filter (λ k, k = KStr "Walk to Camden Town Underground Station")
                       (elements summaries)) = 1%nat
        ∧ size summaries = 4%nat
    | _ => False
    end
  ∧ ∃ summaries : gset pykey,
      fst (run (replying (ok_response two_journeys))
               (journey_planner keyed_ctx "940GZZLUCTN" "940GZZLULVT")
               initial_world) = Returned summaries
      ∧ (∀ s, KStr s ∈ summaries ↔ leg_summary two_journeys (JStr s))
      ∧ (∀ k, k ∈ summaries → ∃ s, k = KStr s)
      ∧ NoDup (elements summaries).
Proof.
  split; [reflexivity |]. split; [reflexivity |]. split.
  - vm_compute. split; reflexivity.
  - apply (journey_planner_unique_summaries
             (replying (ok_response two_journeys)) keyed_ctx
             "940GZZLUCTN" "940GZZLULVT" initial_world
             (ok_response two_journeys) two_journeys);
      reflexivity.
Defined.

(** ** [get_tfl_api] and the headers *)

Lemma get_tfl_api_with_headers (ctx : RunContext) (args : list string)
    (kwargs : gmap string kwarg) :
  is_Some (kwargs !! "headers") → get_tfl_api ctx args kwargs = Raise TypeError.
Proof.
  intros [v Hv]. unfold get_tfl_api, merged_headers, call_keywords. rewrite Hv.
  destruct v as [h|v]; [| done]. by destruct (h !! "app_key").
Qed.

(** C7. The merge of the caller's headers with [app_key] is computed, but
    [client.get] is then called with [**kwargs] and with [headers=...]: when
    the caller passes headers, the keyword is given twice, the call raises
    [TypeError] and no request is sent (the trace is unchanged).  Only a call
    without headers reaches the client, with [app_key] alone. *)
Theorem get_tfl_api_caller_headers_raise client ctx w :
  merged_headers accept_json (tfl_api_key (deps ctx))
  = Ok (<["app_key" := tfl_api_key (deps ctx)]> {["Accept" := Some "application/json"]})
  ∧ run client (get_tfl_api ctx [stop_point_types_url] accept_json) w
    = (Raised TypeError, w)
  ∧ get_tfl_api ctx [stop_point_types_url] ∅
    = ClientGet [stop_point_types_url] (request_keywords ctx)
        (λ answer, match answer with
                   | inl e => Raise e
                   | inr r => Ret r
                   end).
Proof.
  split; [reflexivity |]. split; [| apply get_tfl_api_plain].
  rewrite get_tfl_api_with_headers; [done |]. by eexists.
Qed.

(** ** Without an API key *)

Lemma run_stop_point_types client ctx w :
  run client (stop_point_types ctx) w =
  (match client [stop_point_types_url] (request_keywords ctx) with
   | inl e => Raised e
   | inr r =>
       of_result (raise_for_status r;; body ← response_json r;
                  Ok (JObj [("stop_point_types", body)]))
   end,
   with_trace w (stop_point_types_events ctx)).
Proof.
  unfold stop_point_types, log. rewrite get_tfl_api_plain.
  cbn -[String.append]. fold stop_point_types_url.
  destruct (client _ _) as [e|r]; cbn -[String.append].
  - f_equal. world_eq.
  - destruct (raise_for_status r) as [[]|e]; cbn -[String.append].
    + destruct (response_json r); cbn -[String.append]; f_equal; world_eq.
    + f_equal. world_eq.
Qed.

Lemma unkeyed_headers_rejected (ctx : RunContext) :
  tfl_api_key (deps ctx) = None → header_values_ok (request_keywords ctx) = false.
Proof. unfold request_keywords. by intros ->. Qed.

(** C8. With [TFL_API_KEY] unset the key is [None], and [None] itself is
    put under [app_key]: the header is neither left out nor empty.  A client
    that, as httpx does, refuses a header value that is not a string raises
    before sending, so each of the three tools ends in that exception. *)
Theorem unkeyed_calls_raise client (c : tool_call) w :
  httpx_like client →
  tfl_api_key (deps (call_ctx c)) = None →
  API_CALL_LOCK w = false →
  request_keywords (call_ctx c) = {["headers" := KwHeaders {["app_key" := None]}]}
  ∧ ∃ e, fst (run client (invoke c) w) = Raised e.
Proof.
  intros Hx Hk Hw. split; [unfold request_keywords; by rewrite Hk |].
  apply unkeyed_headers_rejected in Hk.
  destruct c as [ctx|ctx ty|ctx a b]; cbn [invoke call_ctx] in *.
  - destruct (Hx [stop_point_types_url] _ Hk) as [e He]. exists e.
    by rewrite run_bind, run_stop_point_types, He.
  - destruct (Hx [stop_point_list_url ty] _ Hk) as [e He]. exists e.
    by rewrite run_bind, (run_stop_point_list_raised _ _ _ _ e).
  - destruct (Hx [journey_planner_url a b] _ Hk) as [e He]. exists e.
    by rewrite run_bind, run_journey_planner, He.
Qed.

Lemma strict_client_httpx_like (r : response) : httpx_like (strict_client r).
Proof.
  intros args kwargs H. exists TypeError. unfold strict_client. by rewrite H.
Qed.

Lemma unkeyed_calls_raise_witness :
  tfl_api_key (deps unkeyed_ctx) = None
  ∧ API_CALL_LOCK initial_world = false
  ∧ fst (run (strict_client (ok_response (JArr metro_stations)))
             (stop_point_list unkeyed_ctx "NaptanMetroStation") initial_world)
    = Raised TypeError
  ∧ request_keywords unkeyed_ctx = {["headers" := KwHeaders {["app_key" := None]}]}
  ∧ ∃ e, fst (run (strict_client (ok_response (JArr metro_stations)))
                  (invoke (CallStopPointList unkeyed_ctx "NaptanMetroStation"))
                  initial_world) = Raised e.
Proof.
  split; [reflexivity |]. split; [reflexivity |].
  split; [vm_compute; reflexivity |].
  apply (unkeyed_calls_raise (strict_client (ok_response (JArr metro_stations)))
           (CallStopPointList unkeyed_ctx "NaptanMetroStation") initial_world).
  - apply strict_client_httpx_like.
  - reflexivity.
  - reflexivity.
Defined.

(** ** [STOP_TYPES_CACHE] *)

Lemma cache_free_bind {A B : Type} (p : prog A) (f : A → prog B) :
  cache_free p → (∀ a, cache_free (f a)) → cache_free (p ≫= f).
Proof.
  intros Hp Hf.
  induction p as [a|e|k IH|k IH|lvl msg k IH|args kw k IH|key k IH|key v k IH];
    simpl in *;
    solve [done | apply Hf | by apply IH | intros x; by apply IH].
Qed.

Lemma cache_free_lift {A : Type} (r : result A) : cache_free (lift r).
Proof. by destruct r. Qed.

Lemma cache_free_releasing {A : Type} (p : prog A) :
  cache_free p → cache_free (releasing p).
Proof.
  induction p as [a|e|k IH|k IH|lvl msg k IH|args kw k IH|key k IH|key v k IH];
    simpl; solve [done | by apply IH | intros Hp x; by apply IH].
Qed.

Lemma cache_free_get_tfl_api ctx args kwargs : cache_free (get_tfl_api ctx args kwargs).
Proof.
  unfold get_tfl_api. apply cache_free_bind; [apply cache_free_lift |].
  intros headers. apply cache_free_bind; [apply cache_free_lift |].
  intros keywords. simpl. by intros [e|r].
Qed.

Lemma cache_free_stop_point_types ctx : cache_free (stop_point_types ctx).
Proof.
  unfold stop_point_types. apply cache_free_bind; [done |]. intros _.
  apply cache_free_bind; [apply cache_free_get_tfl_api |]. intros r.
  apply cache_free_bind; [apply cache_free_lift |]. intros _.
  apply cache_free_bind; [apply cache_free_lift | done].
Qed.

Lemma cache_free_stop_point_list ctx ty : cache_free (stop_point_list ctx ty).
Proof.
  unfold stop_point_list. apply cache_free_bind; [| intros r; apply cache_free_lift].
  unfold async_with_lock. simpl. apply cache_free_releasing.
  apply (cache_free_bind (get_tfl_api ctx _ ∅)); [apply cache_free_get_tfl_api |].
  intros r. destruct (raise_for_status r); simpl; [done |].
  by destruct (status_code r =? 404).
Qed.

Lemma cache_free_journey_planner ctx a b : cache_free (journey_planner ctx a b).
Proof.
  unfold journey_planner. apply cache_free_bind; [done |]. intros _.
  apply cache_free_bind; [apply cache_free_get_tfl_api |]. intros r.
  apply cache_free_bind; apply cache_free_lift || (intros; apply cache_free_lift).
Qed.

Lemma cache_free_invoke (c : tool_call) : cache_free (invoke c).
Proof.
  destruct c; simpl; (apply cache_free_bind; [| done]).
  - apply cache_free_stop_point_types.
  - apply cache_free_stop_point_list.
  - apply cache_free_journey_planner.
Qed.

(** A coroutine without cache effects gives the same result whatever the
    cache holds, hands the cache on as it found it, and leaves no cache
    event in the trace. *)
Lemma cache_free_frame {A : Type} (client : client_fn) (p : prog A) (w : world)
    (cache : gmap string json) :
  cache_free p →
  run client p (with_cache cache w)
  = (fst (run client p w), with_cache cache (snd (run client p w))).
Proof.
  revert w.
  induction p as [a|e|k IH|k IH|lvl msg k IH|args kw k IH|key k IH|key v k IH];
    intros w Hp; simpl in *; try done.
  - destruct (API_CALL_LOCK w); [done |]. by rewrite <- IH.
  - destruct (API_CALL_LOCK w); [| done]. by rewrite <- IH.
  - by rewrite <- IH.
  - by rewrite <- IH.
Qed.


Lemma cache_free_cache {A : Type} (client : client_fn) (p : prog A) (w : world) :
  cache_free p →
  STOP_TYPES_CACHE (snd (run client p w)) = STOP_TYPES_CACHE w.
Proof.
  intros Hp.
  pose proof (cache_free_frame client p w (STOP_TYPES_CACHE w) Hp) as H.
  replace (with_cache (STOP_TYPES_CACHE w) w) with w in H by by destruct w.
  destruct (run client p w) as [o w']. simpl in *. by injection H as ->.
Qed.

Lemma cache_free_events {A : Type} (client : client_fn) (p : prog A) (w : world) :
  cache_free p →
  ∃ evs, trace (snd (run client p w)) = (trace w ++ evs)%list
         ∧ Forall (λ ev, is_cache_event ev = false) evs.
Proof.
  revert w.
  induction p as [a|e|k IH|k IH|lvl msg k IH|args kw k IH|key k IH|key v k IH];
    intros w Hp; simpl in *; try done.
  - exists []. by rewrite app_nil_r.
  - exists []. by rewrite app_nil_r.
  - destruct (API_CALL_LOCK w); [exists []; by rewrite app_nil_r |].
    destruct (IH (emit EvAcquire (set_lock true w)) Hp) as (evs & -> & Hevs).
    exists (EvAcquire :: evs). simpl. rewrite <- app_assoc. split; [done |].
    by constructor.
  - destruct (API_CALL_LOCK w); [| exists []; by rewrite app_nil_r].
    destruct (IH (emit EvRelease (set_lock false w)) Hp) as (evs & -> & Hevs).
    exists (EvRelease :: evs). simpl. rewrite <- app_assoc. split; [done |].
    by constructor.
  - destruct (IH (emit (EvLog lvl msg) w) Hp) as (evs & -> & Hevs).
    exists (EvLog lvl msg :: evs). simpl. rewrite <- app_assoc. split; [done |].
    by constructor.
  - destruct (IH (client args kw) (emit (EvRequest args kw) w) (Hp _))
      as (evs & -> & Hevs).
    exists (EvRequest args kw :: evs). simpl. rewrite <- app_assoc.
    split; [done |]. by constructor.
Qed.

Lemma run_calls_cache (client : client_fn) (calls : list tool_call) (w : world) :
  STOP_TYPES_CACHE (run_calls client calls w) = STOP_TYPES_CACHE w.
Proof.
  revert w. induction calls as [|c calls IH]; intros w; simpl; [done |].
  rewrite IH. apply cache_free_cache, cache_free_invoke.
Qed.

(** C9. No tool touches [STOP_TYPES_CACHE]: a call hands the cache on as it
    found it, returns the same whatever the cache holds, leaves no read or
    write of the cache in the trace, and after any series of calls from the
    start of the module the cache is still empty. *)
Theorem stop_types_cache_untouched client (c : tool_call) (calls : list tool_call)
    (w : world) (cache : gmap string json) :
  STOP_TYPES_CACHE (snd (run client (invoke c) w)) = STOP_TYPES_CACHE w
  ∧ fst (run client (invoke c) (with_cache cache w)) = fst (run client (invoke c) w)
  ∧ (∃ evs, trace (snd (run client (invoke c) w)) = (trace w ++ evs)%list
            ∧ Forall (λ ev, is_cache_event ev = false) evs)
  ∧ STOP_TYPES_CACHE (run_calls client calls initial_world) = ∅.
Proof.
  pose proof (cache_free_invoke c) as Hc. repeat split.
  - by apply cache_free_cache.
  - by rewrite cache_free_frame.
  - by apply cache_free_events.
  - by rewrite run_calls_cache.
Qed.

(** ** Lock discipline of the tools *)

Lemma lock_free_bind {A B : Type} (p : prog A) (f : A → prog B) :
  lock_free p → (∀ a, lock_free (f a)) → lock_free (p ≫= f).
Proof.
  intros Hp Hf.
  induction p as [a|e|k IH|k IH|lvl msg k IH|args kw k IH|key k IH|key v k IH];
    simpl in *;
    solve [done | apply Hf | by apply IH | intros x; by apply IH].
Qed.

Lemma lock_free_lift {A : Type} (r : result A) : lock_free (lift r).
Proof. by destruct r. Qed.

Lemma lock_free_get_tfl_api ctx args kwargs : lock_free (get_tfl_api ctx args kwargs).
Proof.
  unfold get_tfl_api. apply lock_free_bind; [apply lock_free_lift |].
  intros headers. apply lock_free_bind; [apply lock_free_lift |].
  intros keywords. simpl. by intros [e|r].
Qed.

Lemma lock_free_stop_point_types ctx : lock_free (stop_point_types ctx).
Proof.
  unfold stop_point_types. apply lock_free_bind; [done |]. intros _.
  apply lock_free_bind; [apply lock_free_get_tfl_api |]. intros r.
  apply lock_free_bind; [apply lock_free_lift |]. intros _.
  apply lock_free_bind; [apply lock_free_lift | done].
Qed.

Lemma lock_free_journey_planner ctx a b : lock_free (journey_planner ctx a b).
Proof.
  unfold journey_planner. apply lock_free_bind; [done |]. intros _.
  apply lock_free_bind; [apply lock_free_get_tfl_api |]. intros r.
  apply lock_free_bind; apply lock_free_lift || (intros; apply lock_free_lift).
Qed.

(** The body of the [async with] block of [stop_point_list]. *)
Lemma lock_free_guarded_body ctx ty :
  lock_free
    (log INFO ("Retrieving stop points for type " +:+ ty);;
     r ← get_tfl_api ctx ["https://api.tfl.gov.uk/StopPoint/Type/" +:+ ty] ∅;
     match raise_for_status r with
     | Ok _ => Ret r
     | Err _ =>
         log ERROR "stop_point_list exception triggered";;
         if status_code r =? 404
         then Raise (ModelRetry "invalid stop point type provided!")
         else Ret r
     end).
Proof.
  apply lock_free_bind; [done |]. intros _.
  apply lock_free_bind; [apply lock_free_get_tfl_api |]. intros r.
  destruct (raise_for_status r); simpl; [done |].
  by destruct (status_code r =? 404).
Qed.

Lemma lock_free_disciplined {A : Type} (p : prog A) :
  lock_free p → disciplined false false p.
Proof.
  induction p as [a|e|k IH|k IH|lvl msg k IH|args kw k IH|key k IH|key v k IH];
    simpl; try done; try (by apply IH).
  - intros Hp. split; [done |]. intros answer. by apply IH.
  - intros Hp v. by apply IH.
Qed.

Lemma releasing_disciplined {A : Type} (g : bool) (body : prog A) :
  lock_free body → disciplined g true (releasing body).
Proof.
  induction body as [a|e|k IH|k IH|lvl msg k IH|args kw k IH|key k IH|key v k IH];
    simpl; try done; try (by apply IH).
  - intros Hp. split; [done |]. intros answer. by apply IH.
  - intros Hp v. by apply IH.
Qed.

Lemma disciplined_bind {A B : Type} (g h : bool) (p : prog A) (f : A → prog B) :
  disciplined g h p → (∀ a, disciplined g false (f a)) → disciplined g h (p ≫= f).
Proof.
  intros Hp Hf. revert h Hp.
  induction p as [a|e|k IH|k IH|lvl msg k IH|args kw k IH|key k IH|key v k IH];
    intros h Hp; simpl in *.
  - subst h. apply Hf.
  - done.
  - destruct Hp as [-> Hp]. split; [done | by apply IH].
  - destruct Hp as [-> Hp]. split; [done | by apply IH].
  - by apply IH.
  - destruct Hp as [Hg Hp]. split; [done |]. intros answer. by apply IH.
  - intros v. by apply IH.
  - by apply IH.
Qed.

Lemma disciplined_invoke (c : tool_call) :
  disciplined (is_stop_point_list c) false (invoke c).
Proof.
  destruct c as [ctx|ctx ty|ctx a b]; cbn [invoke is_stop_point_list];
    (apply disciplined_bind; [| done]).
  - apply lock_free_disciplined, lock_free_stop_point_types.
  - unfold stop_point_list. apply disciplined_bind; [| by intros r; destruct (_ ≫= _)].
    split; [done |]. apply releasing_disciplined, lock_free_guarded_body.
  - apply lock_free_disciplined, lock_free_journey_planner.
Qed.

(** ** The pool *)

Lemma holders_cons {A : Type} (t : task A) (ts : list (task A)) :
  holders (t :: ts) = (holding t + holders ts)%nat.
Proof.
  unfold holders, holding. rewrite filter_cons.
  destruct (decide (holds t = true)) as [->|Hn]; [done |].
  by destruct (holds t).
Qed.

Lemma holders_insert {A : Type} (ts : list (task A)) (i : nat) (t t' : task A) :
  ts !! i = Some t →
  (holders (<[i := t']> ts) + holding t = holders ts + holding t')%nat.
Proof.
  revert i. induction ts as [|t0 ts IH]; intros [|i] Hi; simpl in *; try done.
  - injection Hi as ->. rewrite !holders_cons. lia.
  - rewrite !holders_cons. specialize (IH _ Hi). lia.
Qed.

Lemma holders_lookup {A : Type} (ts : list (task A)) (i : nat) (t : task A) :
  ts !! i = Some t → holds t = true → (1 ≤ holders ts)%nat.
Proof.
  revert i. induction ts as [|t0 ts IH]; intros [|i] Hi Ht; simpl in *; try done.
  - injection Hi as ->. rewrite holders_cons. unfold holding. rewrite Ht. lia.
  - rewrite holders_cons. specialize (IH _ Hi Ht). lia.
Qed.

Lemma holders_two {A : Type} (ts : list (task A)) (i j : nat) (ti tj : task A) :
  i ≠ j → ts !! i = Some ti → ts !! j = Some tj →
  holds ti = true → holds tj = true → (2 ≤ holders ts)%nat.
Proof.
  intros Hij Hi Hj Hti Htj.
  pose proof (holders_insert ts i ti {| at_point := at_point ti; holds := false |} Hi)
    as Hins.
  assert (1 ≤ holders (<[i := {| at_point := at_point ti; holds := false |}]> ts))%nat
    as Hrest.
  { apply (holders_lookup _ j tj); [| done]. by rewrite list_lookup_insert_ne. }
  unfold holding in Hins. rewrite Hti in Hins. simpl in Hins. lia.
Qed.

Lemma holders_pos {A : Type} (ts : list (task A)) :
  (0 < holders ts)%nat → ∃ i t, ts !! i = Some t ∧ holds t = true.
Proof.
  induction ts as [|t0 ts IH]; [by unfold holders; simpl; lia |].
  rewrite holders_cons. unfold holding. destruct (holds t0) eqn:Ht0.
  - intros _. by exists 0%nat, t0.
  - intros H. destruct IH as (i & t & Hi & Ht); [lia |]. by exists (S i), t.
Qed.

(** A step of a disciplined task leaves it disciplined, and moves the lock
    and the task's [holds] together. *)
Lemma task_step_disciplined (g : bool) (w w' : world) (t t' : task tool_value) :
  task_disciplined g t →
  task_step w t w' t' →
  (API_CALL_LOCK w = false → holds t = false) →
  task_disciplined g t'
  ∧ ((if API_CALL_LOCK w' then 1 else 0) + holding t
     = (if API_CALL_LOCK w then 1 else 0) + holding t')%nat.
Proof.
  intros Ht Hstep Hfree.
  destruct Hstep as [w k h Hw|w k h Hw|w k h Hw|w lvl msg k h|w args kw k h
                    |w k h answer|w key k h|w key v k h];
    unfold task_disciplined, holding in *; simpl in *.
  - destruct Ht as [-> Ht]. by rewrite Hw.
  - destruct Ht as [-> Ht]. by rewrite Hw.
  - destruct Ht as [-> Ht]. by specialize (Hfree Hw).
  - done.
  - done.
  - destruct Ht as [_ Ht]. split; [apply Ht | done].
  - split; [apply Ht | done].
  - done.
Qed.

Lemma pool_inv_spawn (calls : list tool_call) : pool_inv calls (spawn calls).
Proof.
  split; simpl.
  - apply Forall2_fmap_r, Forall_Forall2_diag, Forall_forall.
    intros c _. apply disciplined_invoke.
  - induction calls as [|c calls IH]; [done |].
    rewrite fmap_cons, holders_cons. by rewrite IH.
Qed.

Lemma pool_inv_step (calls : list tool_call) (s s' : pool tool_value) :
  pool_inv calls s → step s s' → pool_inv calls s'.
Proof.
  intros [Hd Hh] Hstep. destruct Hstep as [i w ts t w' t' Hi Hstep]. simpl in *.
  destruct (Forall2_lookup_r _ _ _ _ _ Hd Hi) as (c & Hc & Ht).
  destruct (task_step_disciplined _ _ _ _ _ Ht Hstep) as [Ht' Hlock].
  { intros Hw. rewrite Hw in Hh. destruct (holds t) eqn:Hholds; [| done].
    pose proof (holders_lookup _ _ _ Hi Hholds). lia. }
  split; simpl.
  - rewrite <- (list_insert_id calls i c Hc). by apply Forall2_insert.
  - pose proof (holders_insert ts i t t' Hi). lia.
Qed.

Lemma pool_inv_nsteps (calls : list tool_call) (n : nat) (s s' : pool tool_value) :
  pool_inv calls s → nsteps step n s s' → pool_inv calls s'.
Proof.
  intros Hinv Hsteps. induction Hsteps as [|n s s1 s2 Hstep _ IH]; [done |].
  apply IH. by eapply pool_inv_step.
Qed.

(** *** No deadlock *)

Lemma free_task_steps (w : world) (t : task tool_value) :
  API_CALL_LOCK w = false → finished t = false →
  ∃ w' t', task_step w t w' t'.
Proof.
  intros Hw Hfin. destruct t as [[p|k] h]; unfold finished in Hfin; simpl in Hfin.
  - destruct p; try done; eexists _, _.
    + by apply step_acquire.
    + by apply step_release_unlocked.
    + apply step_log.
    + apply step_send.
    + apply step_cache_read.
    + apply step_cache_write.
  - eexists _, _. apply (step_answer _ _ _ (inl RuntimeError)).
Qed.

Lemma holder_steps (g : bool) (w : world) (t : task tool_value) :
  API_CALL_LOCK w = true → holds t = true → task_disciplined g t →
  ∃ w' t', task_step w t w' t'.
Proof.
  intros Hw Hh Ht. destruct t as [[p|k] h]; unfold task_disciplined in Ht;
    simpl in *; subst h.
  - destruct p; simpl in Ht; try done; try (by destruct Ht); eexists _, _.
    + by apply step_release.
    + apply step_log.
    + apply step_send.
    + apply step_cache_read.
    + apply step_cache_write.
  - eexists _, _. apply (step_answer _ _ _ (inl RuntimeError)).
Qed.

Lemma pool_progress (calls : list tool_call) (s : pool tool_value) :
  pool_inv calls s →
  (∃ t, t ∈ tasks s ∧ finished t = false) →
  ∃ s', step s s'.
Proof.
  intros [Hd Hh] (t & Hin & Hfin). destruct s as [w ts]. simpl in *.
  destruct (API_CALL_LOCK w) eqn:Hw.
  - destruct (holders_pos ts) as (i & th & Hi & Hth); [lia |].
    destruct (Forall2_lookup_r _ _ _ _ _ Hd Hi) as (c & _ & Hdisc).
    destruct (holder_steps _ w th Hw Hth Hdisc) as (w' & t' & Hstep).
    eexists. by eapply step_at.
  - apply list_elem_of_lookup in Hin as [i Hi].
    destruct (free_task_steps w t Hw Hfin) as (w' & t' & Hstep).
    eexists. by eapply step_at.
Qed.

Lemma finished_not_holding (g : bool) (t : task tool_value) :
  task_disciplined g t → finished t = true → holds t = false.
Proof.
  destruct t as [[p|k] h]; unfold task_disciplined, finished; simpl; [| done].
  by destruct p.
Qed.

Lemma pool_finished_unlocked (calls : list tool_call) (s : pool tool_value) :
  pool_inv calls s →
  (∀ t, t ∈ tasks s → finished t = true) →
  API_CALL_LOCK (shared s) = false.
Proof.
  intros [Hd Hh] Hfin. destruct (API_CALL_LOCK (shared s)); [| done].
  destruct (holders_pos (tasks s)) as (i & t & Hi & Ht); [lia |].
  destruct (Forall2_lookup_r _ _ _ _ _ Hd Hi) as (c & _ & Hdisc).
  rewrite (finished_not_holding _ t Hdisc) in Ht; [done |].
  apply Hfin, list_elem_of_lookup. by exists i.
Qed.

(** *** Every run ends *)

Lemma within_mono {A : Type} (p : prog A) (n m : nat) :
  within n p → (n ≤ m)%nat → within m p.
Proof.
  revert n m.
  induction p as [a|e|k IH|k IH|lvl msg k IH|args kw k IH|key k IH|key v k IH];
    intros n m Hn Hle; simpl in *; try done;
    try (destruct n as [|n]; [done |]; destruct m as [|m]; [lia |];
         apply (IH n); [done | lia]).
  - destruct n as [|[|n]]; try done. destruct m as [|[|m]]; try lia.
    simpl in *. intros answer. apply (IH answer n); [done | lia].
  - destruct n as [|n]; [done |]. destruct m as [|m]; [lia |].
    simpl in *. intros v. apply (IH v n); [done | lia].
Qed.

Lemma within_bind {A B : Type} (p : prog A) (f : A → prog B) (n : nat) :
  within n p → (∀ a, within 0 (f a)) → within n (p ≫= f).
Proof.
  intros Hp Hf. revert n Hp.
  induction p as [a|e|k IH|k IH|lvl msg k IH|args kw k IH|key k IH|key v k IH];
    intros n Hp; simpl in *; try done;
    try (destruct n as [|n]; [done |]; by apply IH).
  - apply (within_mono _ 0); [apply Hf | lia].
  - destruct n as [|[|n]]; try done. simpl in *. intros answer. by apply IH.
  - destruct n as [|n]; [done |]. simpl in *. intros v. by apply IH.
Qed.

Lemma within_lift {A : Type} (r : result A) (n : nat) : within n (lift r).
Proof. by destruct r. Qed.

Lemma within_invoke (c : tool_call) : within (call_cost c) (invoke c).
Proof.
  destruct c as [ctx|ctx ty|ctx a b]; cbn [invoke call_cost is_stop_point_list];
    (apply within_bind; [| done]).
  - unfold stop_point_types, log. rewrite get_tfl_api_plain. simpl.
    intros [e|r]; simpl; [done |].
    destruct (raise_for_status r); simpl; [| done]. by destruct (response_json r).
  - unfold stop_point_list, async_with_lock, log. rewrite get_tfl_api_plain. simpl.
    intros [e|r]; simpl; [done |].
    destruct (raise_for_status r); simpl; [apply within_lift |].
    destruct (status_code r =? 404); simpl; [done | apply within_lift].
  - unfold journey_planner, log. rewrite get_tfl_api_plain. simpl.
    intros [e|r]; simpl; [done |].
    destruct (raise_for_status r); simpl; [apply within_lift | done].
Qed.

Lemma budget_spawn (calls : list tool_call) :
  budget (tasks (spawn calls)) (calls_cost calls).
Proof.
  unfold calls_cost. simpl.
  induction calls as [|c calls IH]; simpl; constructor; [| done].
  apply within_invoke.
Qed.

Lemma task_step_within (n : nat) (w w' : world) (t t' : task tool_value) :
  task_within n t → task_step w t w' t' → ∃ m, (m < n)%nat ∧ task_within m t'.
Proof.
  intros Ht Hstep.
  destruct Hstep as [w k h Hw|w k h Hw|w k h Hw|w lvl msg k h|w args kw k h
                    |w k h answer|w key k h|w key v k h];
    unfold task_within in *; simpl in *;
    (destruct n as [|n]; [done |]); simpl in *;
    first [ by (exists n; split; [lia | first [done | apply Ht]])
          | destruct n as [|n]; [done |];
            by (exists (S n); split; [lia | done]) ].
Qed.

Lemma budget_step (s s' : pool tool_value) (b : nat) :
  budget (tasks s) b → step s s' → ∃ b', (b' < b)%nat ∧ budget (tasks s') b'.
Proof.
  intros Hb Hstep. destruct Hstep as [i w ts t w' t' Hi Hstep]. simpl in *.
  revert i Hi. induction Hb as [|t0 ts n m Ht0 Hts IH]; intros i Hi; [done |].
  destruct i as [|i]; simpl in *.
  - injection Hi as ->.
    destruct (task_step_within _ _ _ _ _ Ht0 Hstep) as (n' & Hlt & Ht').
    exists (n' + m)%nat. split; [lia | by constructor].
  - destruct (IH i Hi) as (m' & Hlt & Hts').
    exists (n + m')%nat. split; [lia | by constructor].
Qed.

Lemma budget_nsteps (n : nat) (s s' : pool tool_value) (b : nat) :
  nsteps step n s s' → budget (tasks s) b →
  ∃ b', (n + b' ≤ b)%nat ∧ budget (tasks s') b'.
Proof.
  intros Hsteps. revert b.
  induction Hsteps as [s|n s s1 s2 Hstep _ IH]; intros b Hb.
  - exists b. split; [lia | done].
  - destruct (budget_step _ _ _ Hb Hstep) as (b1 & Hlt & Hb1).
    destruct (IH _ Hb1) as (b2 & Hle & Hb2). exists b2. split; [lia | done].
Qed.

(** C6. In every state a pool of concurrent tool calls can reach: two
    [stop_point_list] calls are never both waiting for the client's answer,
    at most one task is between [acquire] and [release]; the run has taken
    no more steps than the calls can take in all (six for a
    [stop_point_list], three for the others); as long as a call is
    unfinished some step is possible; once every call has returned or
    raised the lock is free, and a finished call never holds it.  The
    other two tools have no lock operation on any path, and each of them
    calls the gateway whatever the state of the lock: with the lock held or
    free, [stop_point_types] and [journey_planner] log, hand their request
    to the client, end as the answer tells, and leave the lock as it was. *)
Theorem guarded_calls_one_at_a_time (calls : list tool_call) (n : nat)
    (s : pool tool_value) :
  nsteps step n (spawn calls) s →
  (∀ i j ci cj ti tj,
     calls !! i = Some ci → calls !! j = Some cj →
     is_stop_point_list ci = true → is_stop_point_list cj = true →
     tasks s !! i = Some ti → tasks s !! j = Some tj →
     awaiting ti = true → awaiting tj = true →
     i = j)
  ∧ (holders (tasks s) ≤ 1)%nat
  ∧ length (tasks s) = length calls
  ∧ (n ≤ calls_cost calls)%nat
  ∧ ((∃ t, t ∈ tasks s ∧ finished t = false) → ∃ s', step s s')
  ∧ ((∀ t, t ∈ tasks s → finished t = true) → API_CALL_LOCK (shared s) = false)
  ∧ (∀ t, t ∈ tasks s → finished t = true → holds t = false)
  ∧ (∀ ctx a b, lock_free (stop_point_types ctx) ∧ lock_free (journey_planner ctx a b))
  ∧ (∀ client ctx a b w,
       run client (stop_point_types ctx) w
       = (match client [stop_point_types_url] (request_keywords ctx) with
          | inl e => Raised e
          | inr r =>
              of_result (raise_for_status r;; body ← response_json r;
                         Ok (JObj [("stop_point_types", body)]))
          end,
          {| API_CALL_LOCK := API_CALL_LOCK w;
             STOP_TYPES_CACHE := STOP_TYPES_CACHE w;
             trace := trace w
                      ++ [EvLog INFO "Retrieving stop types";
                          EvRequest [stop_point_types_url] (request_keywords ctx)] |})
       ∧ run client (journey_planner ctx a b) w
         = (match client [journey_planner_url a b] (request_keywords ctx) with
            | inl e => Raised e
            | inr r =>
                of_result (raise_for_status r;; body ← response_json r;
                           leg_summaries body)
            end,
            {| API_CALL_LOCK := API_CALL_LOCK w;
               STOP_TYPES_CACHE := STOP_TYPES_CACHE w;
               trace := trace w
                        ++ [EvLog INFO ("Retrieving journey plan from naptanId#"
                                        +:+ a +:+ " to naptanId#" +:+ b);
                            EvRequest [journey_planner_url a b]
                                      (request_keywords ctx)] |})).
Proof.
  intros Hsteps.
  pose proof (pool_inv_nsteps calls n _ _ (pool_inv_spawn calls) Hsteps) as Hinv.
  pose proof Hinv as [Hd Hh].
  assert (holders (tasks s) ≤ 1)%nat as Hone.
  { rewrite Hh. destruct (API_CALL_LOCK (shared s)); lia. }
  assert (∀ i c t, calls !! i = Some c → is_stop_point_list c = true →
                   tasks s !! i = Some t → awaiting t = true → holds t = true)
    as Hguard.
  { intros i c t Hc Hg Ht Hw.
    pose proof (Forall2_lookup_lr _ _ _ _ _ _ Hd Hc Ht) as Hdisc.
    unfold task_disciplined, awaiting in *.
    destruct (at_point t); [done |]. destruct Hdisc as [Hdisc _]. by apply Hdisc. }
  repeat split.
  - intros i j ci cj ti tj Hci Hcj Hgi Hgj Hti Htj Hwi Hwj.
    destruct (decide (i = j)) as [|Hij]; [done |].
    pose proof (holders_two _ _ _ _ _ Hij Hti Htj
                  (Hguard _ _ _ Hci Hgi Hti Hwi) (Hguard _ _ _ Hcj Hgj Htj Hwj)).
    lia.
  - done.
  - symmetry. by eapply Forall2_length.
  - destruct (budget_nsteps _ _ _ _ Hsteps (budget_spawn calls)) as (b & Hle & _).
    lia.
  - by apply pool_progress with calls.
  - by apply pool_finished_unlocked with calls.
  - intros t [i Hi]%list_elem_of_lookup Hfin.
    destruct (Forall2_lookup_r _ _ _ _ _ Hd Hi) as (c & _ & Hdisc).
    by eapply finished_not_holding.
  - apply lock_free_stop_point_types.
  - apply lock_free_journey_planner.
  - apply run_stop_point_types.
  - apply run_journey_planner.
Qed.

(** Three calls at once, at the moment the second one, having taken the
    lock, is waiting for the client, and the journey plan, which never asked
    for the lock, has sent its request too and is waiting beside it. *)
Lemma guarded_calls_one_at_a_time_witness :
  ∃ s : pool tool_value,
    nsteps step 5 (spawn demo_calls) s
    ∧ (∃ t, tasks s !! 1%nat = Some t ∧ awaiting t = true ∧ holds t = true)
    ∧ (∃ t, tasks s !! 2%nat = Some t ∧ awaiting t = true ∧ holds t = false)
    ∧ API_CALL_LOCK (shared s) = true
    ∧ count_events is_request (trace (shared s)) = 2%nat
    ∧ (∀ i j ci cj ti tj,
         demo_calls !! i = Some ci → demo_calls !! j = Some cj →
         is_stop_point_list ci = true → is_stop_point_list cj = true →
         tasks s !! i = Some ti → tasks s !! j = Some tj →
         awaiting ti = true → awaiting tj = true →
         i = j)
    ∧ (holders (tasks s) ≤ 1)%nat
    ∧ length (tasks s) = length demo_calls
    ∧ (5 ≤ calls_cost demo_calls)%nat
    ∧ ((∃ t, t ∈ tasks s ∧ finished t = false) → ∃ s', step s s')
    ∧ ((∀ t, t ∈ tasks s → finished t = true) → API_CALL_LOCK (shared s) = false)
    ∧ (∀ t, t ∈ tasks s → finished t = true → holds t = false)
    ∧ (∀ ctx a b, lock_free (stop_point_types ctx) ∧ lock_free (journey_planner ctx a b))
    ∧ (∀ client ctx a b w,
         run client (stop_point_types ctx) w
         = (match client [stop_point_types_url] (request_keywords ctx) with
            | inl e => Raised e
            | inr r =>
                of_result (raise_for_status r;; body ← response_json r;
                           Ok (JObj [("stop_point_types", body)]))
            end,
            {| API_CALL_LOCK := API_CALL_LOCK w;
               STOP_TYPES_CACHE := STOP_TYPES_CACHE w;
               trace := trace w
                        ++ [EvLog INFO "Retrieving stop types";
                            EvRequest [stop_point_types_url] (request_keywords ctx)] |})
         ∧ run client (journey_planner ctx a b) w
           = (match client [journey_planner_url a b] (request_keywords ctx) with
              | inl e => Raised e
              | inr r =>
                  of_result (raise_for_status r;; body ← response_json r;
                             leg_summaries body)
              end,
              {| API_CALL_LOCK := API_CALL_LOCK w;
                 STOP_TYPES_CACHE := STOP_TYPES_CACHE w;
                 trace := trace w
                          ++ [EvLog INFO ("Retrieving journey plan from naptanId#"
                                          +:+ a +:+ " to naptanId#" +:+ b);
                              EvRequest [journey_planner_url a b]
                                        (request_keywords ctx)] |})).
Proof.
  eexists. split; [| split; [| split; [| split; [| split]]]]; cycle 5.
  - eapply (guarded_calls_one_at_a_time demo_calls 5).
    eapply nsteps_l.
    { eapply (step_at 1); [reflexivity |]. eapply step_acquire. reflexivity. }
    eapply nsteps_l.
    { eapply (step_at 1); [reflexivity |]. eapply step_log. }
    eapply nsteps_l.
    { eapply (step_at 1); [reflexivity |]. eapply step_send. }
    eapply nsteps_l.
    { eapply (step_at 2); [reflexivity |]. eapply step_log. }
    eapply nsteps_l.
    { eapply (step_at 2); [reflexivity |]. eapply step_send. }
    apply nsteps_O.
  - eapply nsteps_l.
    { eapply (step_at 1); [reflexivity |]. eapply step_acquire. reflexivity. }
    eapply nsteps_l.
    { eapply (step_at 1); [reflexivity |]. eapply step_log. }
    eapply nsteps_l.
    { eapply (step_at 1); [reflexivity |]. eapply step_send. }
    eapply nsteps_l.
    { eapply (step_at 2); [reflexivity |]. eapply step_log. }
    eapply nsteps_l.
    { eapply (step_at 2); [reflexivity |]. eapply step_send. }
    apply nsteps_O.
  - eexists. split; [reflexivity |]. split; reflexivity.
  - eexists. split; [reflexivity |]. split; reflexivity.
  - reflexivity.
  - reflexivity.
Defined.

(** * Further properties of the tools *)

(** ** The comprehension of [stop_point_list], record by record *)

(** The comprehension runs through its input from left to right: over two
    lists one after the other it gives the two results one after the
    other, and fails with the first failure. *)
Theorem stop_point_comprehension_app (xs ys : list json) :
  stop_point_comprehension (xs ++ ys)
  = (a ← stop_point_comprehension xs;
     b ← stop_point_comprehension ys;
     Ok (a ++ b))%list.
Proof.
  induction xs as [|sp xs IH]; simpl.
  - by destruct (stop_point_comprehension ys).
  - destruct (keep sp) as [[]|e]; simpl; [| done | done].
    destruct (project sp) as [rec|e]; simpl; [| done].
    rewrite IH. destruct (stop_point_comprehension xs) as [a|e]; simpl; [| done].
    by destruct (stop_point_comprehension ys).
Qed.

(** A record whose name is off the allow-list is dropped before its
    [naptanId] is looked at, so it may lack one; a record on the allow-list
    that lacks it fails the whole comprehension with the error of the
    lookup. *)
Theorem stop_point_comprehension_naptan_id (sp : json) (name : string)
    (rest : list json) :
  common_name sp = Some name →
  (¬ on_allow_list name →
   stop_point_comprehension (sp :: rest) = stop_point_comprehension rest)
  ∧ (on_allow_list name →
     ∀ e, getitem sp "naptanId" = Err e →
          stop_point_comprehension (sp :: rest) = Err e).
Proof.
  intros Hn. simpl. rewrite (keep_record _ _ Hn). split.
  - intros Hoff. rewrite on_allow_list_spec in Hoff.
    by destruct (_ || _).
  - intros Hon e He. rewrite on_allow_list_spec in Hon. rewrite Hon. simpl.
    unfold project, common_name in *.
    destruct (getitem sp "commonName") as [v|]; [| done]. simpl. by rewrite He.
Qed.

Lemma stop_point_comprehension_naptan_id_witness :
  common_name nameless_id = Some "Bank Underground Station"
  ∧ common_name liverpool_without_id = Some "Liverpool Street"
  ∧ stop_point_comprehension [nameless_id; camden_town] = Ok [camden_point]
  ∧ stop_point_comprehension [liverpool_without_id; camden_town]
    = Err (KeyError "naptanId")
  ∧ (¬ on_allow_list "Bank Underground Station" →
     stop_point_comprehension (nameless_id :: [camden_town])
     = stop_point_comprehension [camden_town])
  ∧ (on_allow_list "Liverpool Street" →
     ∀ e, getitem liverpool_without_id "naptanId" = Err e →
          stop_point_comprehension (liverpool_without_id :: [camden_town]) = Err e).
Proof.
  split; [reflexivity |]. split; [reflexivity |].
  split; [vm_compute; reflexivity |]. split; [vm_compute; reflexivity |].
  split.
  - apply (stop_point_comprehension_naptan_id nameless_id
             "Bank Underground Station" [camden_town]). reflexivity.
  - apply (stop_point_comprehension_naptan_id liverpool_without_id
             "Liverpool Street" [camden_town]). reflexivity.
Defined.

Lemma selects_names (items out : list json) :
  selects items out →
  Forall (λ sp, is_Some (common_name sp)) items ∧ (length out ≤ length items)%nat.
Proof.
  induction 1 as [|sp name ident items out Hn Hon Hi _ [IH1 IH2]
                  |sp name items out Hn Hoff _ [IH1 IH2]].
  - split; [constructor | done].
  - split; [constructor; [by eexists | done] | simpl; lia].
  - split; [constructor; [by eexists | done] | simpl; lia].
Qed.

(** [stop_point_list] is all or nothing: when it returns, every record of
    the body, also those it left out, has a string [commonName], and the
    list it returns is no longer than the body. *)
Theorem stop_point_list_all_named client ctx ty w out :
  fst (run client (stop_point_list ctx ty) w) = Returned out →
  ∃ r body items,
    client [stop_point_list_url ty] (request_keywords ctx) = inr r
    ∧ json_body r = Some body ∧ py_iter body = Ok items
    ∧ Forall (λ sp, is_Some (common_name sp)) items
    ∧ (length out ≤ length items)%nat.
Proof.
  intros (r & body & items & Hc & Hb & Hit & Hout)%run_stop_point_list_returned.
  apply comprehension_selects, selects_names in Hout as [Hnames Hlen].
  by exists r, body, items.
Qed.

Lemma stop_point_list_all_named_witness :
  fst (run (replying (ok_response (JArr three_stations)))
           (stop_point_list keyed_ctx "NaptanMetroStation") initial_world)
  = Returned [stop_point "Liverpool Street Underground Station" (JStr "940GZZLULVT");
              camden_point]
  ∧ ∃ r body items,
      replying (ok_response (JArr three_stations))
        [stop_point_list_url "NaptanMetroStation"] (request_keywords keyed_ctx)
      = inr r
      ∧ json_body r = Some body ∧ py_iter body = Ok items
      ∧ Forall (λ sp, is_Some (common_name sp)) items
      ∧ (length [stop_point "Liverpool Street Underground Station" (JStr "940GZZLULVT");
                 camden_point] ≤ length items)%nat.
Proof.
  split; [vm_compute; reflexivity |].
  apply (stop_point_list_all_named (replying (ok_response (JArr three_stations)))
           keyed_ctx "NaptanMetroStation" initial_world).
  vm_compute. reflexivity.
Defined.

(** Bodies that are no array.  An empty object and an empty string give no
    record at all; an object with a field (the API's error body is one) or
    a string with a character raises [TypeError], since what the loop gets
    is a string, which has no string index; [null], a boolean and a number
    cannot be iterated. *)
Theorem filter_stop_points_not_an_array :
  filter_stop_points (JArr []) = Ok []
  ∧ filter_stop_points (JObj []) = Ok []
  ∧ filter_stop_points (JStr "") = Ok []
  ∧ (∀ field fields, filter_stop_points (JObj (field :: fields)) = Err TypeError)
  ∧ (∀ c s, filter_stop_points (JStr (String c s)) = Err TypeError)
  ∧ filter_stop_points JNull = Err TypeError
  ∧ (∀ b, filter_stop_points (JBool b) = Err TypeError)
  ∧ (∀ n, filter_stop_points (JNum n) = Err TypeError).
Proof.
  repeat split; try done.
  intros field fields. unfold filter_stop_points, py_iter.
  destruct (remove_dups ((field :: fields).*1)) as [|k ks] eqn:Hks; [| done].
  assert (field.1 ∈ remove_dups ((field :: fields).*1)) as Hin
    by (apply elem_of_remove_dups; rewrite fmap_cons; left).
  rewrite Hks in Hin. by apply elem_of_nil in Hin.
Qed.

Lemma lower_small_letter (c : ascii) :
  is_small_letter c = true → lower_ascii c = c ∧ lower_ascii (upper_ascii c) = c.
Proof.
  destruct c as [[] [] [] [] [] [] [] []]; intros H; vm_compute in H; try done;
    split; reflexivity.
Qed.

Lemma lower_capitalisation (needle mid : string) :
  forallb is_small_letter (list_ascii_of_string needle) = true →
  is_capitalisation needle mid = true →
  lower mid = needle.
Proof.
  revert mid. induction needle as [|c needle IH]; intros [|d mid]; simpl; try done.
  intros [Hc Hn]%andb_true_iff [Hd Hm]%andb_true_iff.
  destruct (lower_small_letter c Hc) as [Hlow Hup].
  rewrite (IH mid Hn Hm). f_equal.
  apply orb_true_iff in Hd as [Hd | Hd]; apply Ascii.eqb_eq in Hd; by subst d.
Qed.

(** Capitals do not count: a record whose name holds "camden" or
    "liverpool" spelt with small letters, with capitals or with any mix of
    the two, whatever stands before and after, is kept. *)
Theorem keep_any_capitals (sp : json) (needle pre mid post : string) :
  needle ∈ allow_list →
  is_capitalisation needle mid = true →
  common_name sp = Some (pre +:+ mid +:+ post) →
  keep sp = Ok true.
Proof.
  intros Hin Hcap Hname. rewrite (keep_record _ _ Hname). f_equal.
  apply on_allow_list_spec. exists needle. split; [done |].
  exists pre, mid, post. split; [done |]. apply lower_capitalisation; [| done].
  unfold allow_list in Hin.
  apply elem_of_cons in Hin as [-> | Hin]; [reflexivity |].
  by apply list_elem_of_singleton in Hin as ->.
Qed.

Lemma keep_any_capitals_witness :
  "liverpool" ∈ allow_list
  ∧ is_capitalisation "liverpool" "LiVERpool" = true
  ∧ common_name (named "New LiVERpool Street Stop")
    = Some ("New " +:+ "LiVERpool" +:+ " Street Stop")
  ∧ keep camden_road_shouting = Ok true
  ∧ keep camden_road = Ok true
  ∧ keep (named "Camden") = Ok true
  ∧ keep (named "Cam den") = Ok false
  ∧ keep (named "New LiVERpool Street Stop") = Ok true.
Proof.
  split; [by right; left |]. split; [reflexivity |]. split; [reflexivity |].
  split; [reflexivity |]. split; [reflexivity |]. split; [reflexivity |].
  split; [reflexivity |].
  apply (keep_any_capitals (named "New LiVERpool Street Stop") "liverpool"
           "New " "LiVERpool" " Street Stop").
  - by right; left.
  - reflexivity.
  - reflexivity.
Defined.

(** ** The gateway and the two tools without the lock *)

(** [get_tfl_api] is transparent: a call without [headers] sends one
    request with the caller's positional arguments, adds the [headers]
    keyword with [app_key] alone, leaves every other keyword as it was, and
    hands back what the client gives: the response whatever its status, or
    the exception. *)
Theorem get_tfl_api_passes_through client ctx args (kwargs : gmap string kwarg) w :
  kwargs !! "headers" = None →
  let sent :=
    <["headers" := KwHeaders {["app_key" := tfl_api_key (deps ctx)]}]> kwargs in
  run client (get_tfl_api ctx args kwargs) w
  = (match client args sent with
     | inl e => Raised e
     | inr r => Returned r
     end,
     emit (EvRequest args sent) w)
  ∧ ∀ name, name ≠ "headers" → sent !! name = kwargs !! name.
Proof.
  intros Hk sent. split.
  - unfold get_tfl_api, merged_headers, call_keywords. rewrite Hk. simpl.
    fold sent. by destruct (client args sent).
  - intros name Hname. unfold sent. by rewrite lookup_insert_ne.
Qed.

Lemma get_tfl_api_passes_through_witness :
  follow_redirects !! "headers" = None
  ∧ fst (run (replying teapot) (get_tfl_api keyed_ctx [stop_point_types_url]
                                  follow_redirects) initial_world)
    = Returned teapot
  ∧ let sent :=
      <["headers" := KwHeaders {["app_key" := tfl_api_key (deps keyed_ctx)]}]>
        follow_redirects in
    run (replying teapot) (get_tfl_api keyed_ctx [stop_point_types_url]
                             follow_redirects) initial_world
    = (match replying teapot [stop_point_types_url] sent with
       | inl e => Raised e
       | inr r => Returned r
       end,
       emit (EvRequest [stop_point_types_url] sent) initial_world)
    ∧ ∀ name, name ≠ "headers" → sent !! name = follow_redirects !! name.
Proof.
  split; [reflexivity |]. split; [vm_compute; reflexivity |].
  apply (get_tfl_api_passes_through (replying teapot) keyed_ctx
           [stop_point_types_url] follow_redirects initial_world).
  reflexivity.
Defined.

(** Whatever a caller passes as [headers], a dict or not, empty or not,
    [get_tfl_api] raises [TypeError] and sends nothing. *)
Theorem get_tfl_api_headers_never_sent client ctx args (kwargs : gmap string kwarg)
    w :
  is_Some (kwargs !! "headers") →
  run client (get_tfl_api ctx args kwargs) w = (Raised TypeError, w).
Proof. intros H. by rewrite get_tfl_api_with_headers. Qed.

Lemma get_tfl_api_headers_never_sent_witness :
  is_Some (({["headers" := KwHeaders ∅]} : gmap string kwarg) !! "headers")
  ∧ run (replying teapot)
        (get_tfl_api keyed_ctx [stop_point_types_url] {["headers" := KwHeaders ∅]})
        initial_world
    = (Raised TypeError, initial_world).
Proof.
  split; [by eexists |].
  apply (get_tfl_api_headers_never_sent (replying teapot) keyed_ctx
           [stop_point_types_url] {["headers" := KwHeaders ∅]} initial_world).
  by eexists.
Defined.

(** [stop_point_types] returns exactly on a 2xx response whose body is
    JSON, and then the body itself under [stop_point_types]. *)
Theorem stop_point_types_returns_iff client ctx w (v : json) :
  fst (run client (stop_point_types ctx) w) = Returned v
  ↔ ∃ r body,
      client [stop_point_types_url] (request_keywords ctx) = inr r
      ∧ is_success r = true ∧ json_body r = Some body
      ∧ v = JObj [("stop_point_types", body)].
Proof.
  rewrite run_stop_point_types. simpl.
  destruct (client _ _) as [e|r]; simpl.
  { split; [done | by intros (r & body & H & _)]. }
  unfold raise_for_status, response_json.
  destruct (is_success r) eqn:Hs; simpl.
  - destruct (json_body r) as [body|] eqn:Hb; simpl.
    + split.
      * intros [= <-]. by exists r, body.
      * intros (r' & body' & [= <-] & _ & Hb' & ->). rewrite Hb in Hb'.
        by injection Hb' as <-.
    + split; [done |]. intros (r' & body' & [= <-] & _ & Hb' & _). congruence.
  - split; [done |]. intros (r' & body' & [= <-] & Hs' & _). congruence.
Qed.

(** On a status outside 200-299 the two tools without the lock raise
    [HTTPStatusError] with that status, whatever the body holds and
    whether or not the lock is held. *)
Theorem unguarded_tools_raise_on_status client ctx a b w r :
  client [stop_point_types_url] (request_keywords ctx) = inr r →
  client [journey_planner_url a b] (request_keywords ctx) = inr r →
  is_success r = false →
  fst (run client (stop_point_types ctx) w) = Raised (HTTPStatusError (status_code r))
  ∧ fst (run client (journey_planner ctx a b) w)
    = Raised (HTTPStatusError (status_code r)).
Proof.
  intros Ht Hj Hs. rewrite run_stop_point_types, run_journey_planner, Ht, Hj.
  unfold raise_for_status. by rewrite Hs.
Qed.

Lemma unguarded_tools_raise_on_status_witness :
  is_success (server_error two_journeys) = false
  ∧ fst (run (replying (server_error two_journeys)) (stop_point_types keyed_ctx)
             (set_lock true initial_world))
    = Raised (HTTPStatusError (status_code (server_error two_journeys)))
  ∧ fst (run (replying (server_error two_journeys))
             (journey_planner keyed_ctx "940GZZLUCTN" "940GZZLULVT")
             (set_lock true initial_world))
    = Raised (HTTPStatusError (status_code (server_error two_journeys))).
Proof.
  split; [reflexivity |].
  apply (unguarded_tools_raise_on_status (replying (server_error two_journeys))
           keyed_ctx "940GZZLUCTN" "940GZZLULVT" (set_lock true initial_world)
           (server_error two_journeys)); reflexivity.
Defined.

(** No error of the comprehension is a [ModelRetry]. *)
Lemma filter_stop_points_no_retry (r : response) (e : exn) (msg : string) :
  (body ← response_json r; filter_stop_points body) = Err e → e ≠ ModelRetry msg.
Proof.
  unfold response_json, filter_stop_points.
  destruct (json_body r) as [body|]; simpl; [| by intros [= <-]].
  destruct (py_iter body) as [items|e'] eqn:Hit; simpl.
  2:{ intros [= <-]. destruct body; simpl in Hit; by inversion Hit. }
  clear Hit. induction items as [|sp items IH]; simpl; [done |].
  assert (∀ v key e', getitem v key = Err e' → e' ≠ ModelRetry msg) as Hget.
  { intros v key e' Hv. destruct v; simpl in Hv; try by inversion Hv.
    destruct (assoc key fields); by inversion Hv. }
  assert (∀ v e', py_lower v = Err e' → e' ≠ ModelRetry msg) as Hlow.
  { intros v e' Hv. destruct v; simpl in Hv; by inversion Hv. }
  unfold keep, project.
  destruct (getitem sp "commonName") as [name|e1] eqn:Hname; simpl;
    [| intros [= <-]; by eapply Hget].
  destruct (py_lower name) as [l|e1] eqn:Hl; simpl;
    [| intros [= <-]; by eapply Hlow].
  destruct (str_in "camden" l); simpl.
  - destruct (getitem sp "naptanId") as [i|e1] eqn:Hi; simpl;
      [| intros [= <-]; by eapply Hget].
    destruct (stop_point_comprehension items); simpl; [done |].
    intros [= <-]. by apply IH.
  - destruct (str_in "liverpool" l); simpl; [| done].
    destruct (getitem sp "naptanId") as [i|e1] eqn:Hi; simpl;
      [| intros [= <-]; by eapply Hget].
    destruct (stop_point_comprehension items); simpl; [done |].
    intros [= <-]. by apply IH.
Qed.

(** When the client answers with a response, [stop_point_list] raises
    [ModelRetry] exactly when the status is 404, and the message is always
    the same. *)
Theorem stop_point_list_retry_iff_404 client ctx ty w r (msg : string) :
  API_CALL_LOCK w = false →
  client [stop_point_list_url ty] (request_keywords ctx) = inr r →
  fst (run client (stop_point_list ctx ty) w) = Raised (ModelRetry msg)
  ↔ status_code r = 404 ∧ msg = "invalid stop point type provided!".
Proof.
  intros Hw Hc.
  assert (of_result (body ← response_json r; filter_stop_points body)
          ≠ Raised (ModelRetry msg)) as Hres.
  { destruct (_ ≫= _) as [out|e] eqn:He; simpl; [done |].
    intros [= ->]. by eapply filter_stop_points_no_retry. }
  destruct (decide (status_code r = 404)) as [H404|H404].
  - rewrite (run_stop_point_list_404 _ _ _ _ r) by done. simpl. split.
    + by intros [= <-].
    + by intros [_ ->].
  - destruct (is_success r) eqn:Hs.
    + rewrite (run_stop_point_list_success _ _ _ _ r) by done. simpl.
      split; [done | by intros [? _]].
    + rewrite (run_stop_point_list_other _ _ _ _ r) by done. simpl.
      split; [done | by intros [? _]].
Qed.

Lemma stop_point_list_retry_iff_404_witness :
  API_CALL_LOCK initial_world = false
  ∧ (fst (run (replying not_found) (stop_point_list keyed_ctx "NoSuchType")
              initial_world)
     = Raised (ModelRetry "invalid stop point type provided!")
     ↔ status_code not_found = 404
       ∧ "invalid stop point type provided!" = "invalid stop point type provided!").
Proof.
  split; [reflexivity |].
  apply (stop_point_list_retry_iff_404 (replying not_found) keyed_ctx "NoSuchType"
           initial_world not_found "invalid stop point type provided!");
    reflexivity.
Defined.

(** ** The set of [journey_planner], leg by leg *)

Lemma legs_into_cons (acc : gset pykey) (leg : json) (rest : list json) :
  legs_into acc (leg :: rest) = (k ← leg_key leg; legs_into ({[k]} ∪ acc) rest).
Proof.
  unfold leg_key. simpl.
  destruct (getitem leg "instruction") as [i|]; simpl; [| done].
  by destruct (getitem i "summary").
Qed.

Lemma legs_into_Ok (acc : gset pykey) (ll : list json) :
  (∃ s, legs_into acc ll = Ok s) ↔ Forall (λ leg, ∃ k, leg_key leg = Ok k) ll.
Proof.
  revert acc. induction ll as [|leg ll IH]; intros acc.
  - split; [constructor | by exists acc].
  - rewrite legs_into_cons, Forall_cons. destruct (leg_key leg) as [k|e]; simpl.
    + rewrite IH. split; [by split; [exists k |] | by intros [_ ?]].
    + split; [by intros [s ?] | by intros [[k ?] _]].
Qed.

Lemma journeys_into_Ok (acc : gset pykey) (jl : list json) :
  (∃ s, journeys_into acc jl = Ok s) ↔ Forall journey_ok jl.
Proof.
  revert acc. induction jl as [|j jl IH]; intros acc.
  - split; [constructor | by exists acc].
  - rewrite Forall_cons. unfold journey_ok at 1. simpl.
    destruct (getitem j "legs") as [legs|e]; simpl.
    2:{ split; [by intros [s ?] | by intros [(l & ll & ? & _) _]]. }
    destruct (py_iter legs) as [ll|e] eqn:Hll; simpl.
    2:{ split; [by intros [s ?] |]. intros [(l & ll & [= <-] & ? & _) _].
        congruence. }
    destruct (legs_into acc ll) as [acc'|e] eqn:Hacc; simpl.
    + rewrite IH. split.
      * intros Hjl. split; [| done]. exists legs, ll. repeat split; try done.
        apply (legs_into_Ok acc). by exists acc'.
      * by intros [_ ?].
    + split; [by intros [s ?] |].
      intros [(l & ll' & [= <-] & Hll' & Hlegs) _].
      rewrite Hll in Hll'. injection Hll' as <-.
      apply (legs_into_Ok acc) in Hlegs as [s Hs]. congruence.
Qed.

(** [journey_planner] is all or nothing: when the comprehension returns,
    every leg of every journey option had a summary that can be a set
    element, and the key of each one is in the set. *)
Theorem leg_summaries_all_legs (body : json) (s : gset pykey) :
  leg_summaries body = Ok s →
  Forall journey_ok (journeys_of body)
  ∧ ∀ journey leg,
      journey ∈ journeys_of body → leg ∈ legs_of journey →
      ∃ k, leg_key leg = Ok k ∧ k ∈ s.
Proof.
  intros Hs. pose proof (leg_summaries_spec _ _ Hs) as Hspec.
  unfold leg_summaries, journeys_of in *.
  destruct (getitem body "journeys") as [journeys|] eqn:Hj; simpl in *; [| done].
  destruct (py_iter journeys) as [jl|] eqn:Hjl; simpl in *; [| done].
  assert (Forall journey_ok jl) as Hok by (apply (journeys_into_Ok ∅); by exists s).
  split; [done |]. intros journey leg Hin Hleg.
  rewrite Forall_forall in Hok.
  destruct (Hok _ Hin) as (legs & ll & Hlegs & Hll & Hkeys).
  unfold legs_of in Hleg. rewrite Hlegs in Hleg. simpl in Hleg. rewrite Hll in Hleg.
  rewrite Forall_forall in Hkeys. destruct (Hkeys _ Hleg) as [k Hk].
  exists k. split; [done |]. apply Hspec. unfold leg_key in Hk.
  destruct (getitem leg "instruction") as [i|] eqn:Hi; simpl in Hk; [| done].
  destruct (getitem i "summary") as [v|] eqn:Hv; simpl in Hk; [| done].
  exists v. split; [| done]. unfold leg_summary.
  by exists journeys, jl, journey, legs, ll, leg, i.
Qed.

Lemma two_journeys_summaries_eq :
  leg_summaries two_journeys = Ok two_journeys_summaries.
Proof.
  destruct (leg_summaries_total two_journeys eq_refl) as (s & Hs & _).
  unfold two_journeys_summaries. by rewrite Hs.
Qed.

Lemma leg_summaries_all_legs_witness :
  leg_summaries two_journeys = Ok two_journeys_summaries
  ∧ size two_journeys_summaries = 4%nat
  ∧ (Forall journey_ok (journeys_of two_journeys)
     ∧ ∀ journey leg,
         journey ∈ journeys_of two_journeys → leg ∈ legs_of journey →
         ∃ k, leg_key leg = Ok k ∧ k ∈ two_journeys_summaries).
Proof.
  pose proof two_journeys_summaries_eq as H.
  split; [exact H |]. split; [vm_compute; reflexivity |].
  exact (leg_summaries_all_legs two_journeys two_journeys_summaries H).
Defined.

Lemma legs_into_size (acc s : gset pykey) (ll : list json) :
  legs_into acc ll = Ok s → (size s ≤ size acc + length ll)%nat.
Proof.
  revert acc. induction ll as [|leg ll IH]; intros acc.
  - intros [= <-]. simpl. lia.
  - rewrite legs_into_cons. destruct (leg_key leg) as [k|]; simpl; [| done].
    intros Hs%IH.
    assert (size ({[k]} ∪ acc) ≤ 1 + size acc)%nat; [| lia].
    rewrite size_union_alt, size_singleton.
    assert (size (acc ∖ {[k]}) ≤ size acc)%nat; [| lia].
    by apply subseteq_size, subseteq_difference_l.
Qed.

Lemma leg_count_cons (j : json) (jl : list json) :
  leg_count (j :: jl) = (length (legs_of j) + leg_count jl)%nat.
Proof. done. Qed.

Lemma journeys_into_size (acc s : gset pykey) (jl : list json) :
  journeys_into acc jl = Ok s → (size s ≤ size acc + leg_count jl)%nat.
Proof.
  revert acc. induction jl as [|j jl IH]; intros acc.
  - intros [= <-]. unfold leg_count. simpl. lia.
  - rewrite leg_count_cons. unfold legs_of. simpl.
    destruct (getitem j "legs") as [legs|]; simpl; [| done].
    destruct (py_iter legs) as [ll|]; simpl; [| done].
    destruct (legs_into acc ll) as [acc'|] eqn:Hacc; simpl; [| done].
    intros Hs%IH. apply legs_into_size in Hacc. lia.
Qed.

(** The set has at most one element per leg: it is never larger than the
    number of legs of all journey options together, and it is empty when
    there is no leg. *)
Theorem leg_summaries_size (body : json) (s : gset pykey) :
  leg_summaries body = Ok s → (size s ≤ leg_count (journeys_of body))%nat.
Proof.
  unfold leg_summaries, journeys_of.
  destruct (getitem body "journeys") as [journeys|]; simpl; [| done].
  destruct (py_iter journeys) as [jl|]; simpl; [| done].
  intros Hs%journeys_into_size. rewrite size_empty in Hs. lia.
Qed.

Lemma leg_summaries_size_witness :
  leg_count (journeys_of two_journeys) = 5%nat
  ∧ leg_summaries two_journeys = Ok two_journeys_summaries
  ∧ size two_journeys_summaries = 4%nat
  ∧ (size two_journeys_summaries ≤ leg_count (journeys_of two_journeys))%nat.
Proof.
  pose proof two_journeys_summaries_eq as H.
  split; [reflexivity |]. split; [exact H |]. split; [vm_compute; reflexivity |].
  exact (leg_summaries_size two_journeys two_journeys_summaries H).
Defined.

(** The order of the journey options does not matter: a body whose
    [journeys] are those of another in another order gives the same set,
    and returns whenever the other does. *)
Theorem leg_summaries_any_order (body body' : json) (jl jl' : list json)
    (s : gset pykey) :
  getitem body "journeys" = Ok (JArr jl) →
  getitem body' "journeys" = Ok (JArr jl') →
  jl ≡ₚ jl' →
  leg_summaries body = Ok s →
  leg_summaries body' = Ok s.
Proof.
  intros Hb Hb' Hperm Hs.
  assert (∃ s', leg_summaries body' = Ok s') as [s' Hs'].
  { unfold leg_summaries in *. rewrite Hb in Hs. rewrite Hb'. simpl in *.
    apply (journeys_into_Ok ∅). rewrite <- Hperm. apply (journeys_into_Ok ∅).
    by exists s. }
  rewrite Hs'. f_equal. apply set_eq. intros k.
  rewrite (leg_summaries_spec _ _ Hs k), (leg_summaries_spec _ _ Hs' k).
  unfold leg_summary.
  split; intros (v & (journeys & l & j & legs & ll & lg & i & Hj & Hl & Hin & H) & Hk);
    exists v; (split; [| done]).
  - rewrite Hb' in Hj. injection Hj as <-. simpl in Hl. injection Hl as <-.
    exists (JArr jl), jl, j, legs, ll, lg, i. rewrite <- Hperm in Hin.
    destruct H as (? & ? & ? & ? & ?). by repeat split.
  - rewrite Hb in Hj. injection Hj as <-. simpl in Hl. injection Hl as <-.
    exists (JArr jl'), jl', j, legs, ll, lg, i. rewrite Hperm in Hin.
    destruct H as (? & ? & ? & ? & ?). by repeat split.
Qed.

Lemma leg_summaries_any_order_witness :
  getitem two_journeys "journeys" = Ok (JArr (journeys_of two_journeys))
  ∧ getitem two_journeys_swapped "journeys"
    = Ok (JArr (journeys_of two_journeys_swapped))
  ∧ journeys_of two_journeys ≡ₚ journeys_of two_journeys_swapped
  ∧ leg_summaries two_journeys = Ok two_journeys_summaries
  ∧ leg_summaries two_journeys_swapped = Ok two_journeys_summaries.
Proof.
  pose proof two_journeys_summaries_eq as H.
  assert (journeys_of two_journeys ≡ₚ journeys_of two_journeys_swapped) as Hperm
    by exact (perm_swap _ _ []).
  split; [reflexivity |]. split; [reflexivity |]. split; [exact Hperm |].
  split; [exact H |].
  exact (leg_summaries_any_order two_journeys two_journeys_swapped
           (journeys_of two_journeys) (journeys_of two_journeys_swapped)
           two_journeys_summaries eq_refl eq_refl Hperm H).
Defined.

(** ** The lock, call after call *)

Lemma lock_free_run {A : Type} (client : client_fn) (p : prog A) (w : world)
    (held : bool) :
  lock_free p →
  fst (run client p w) ≠ Waiting
  ∧ run client p (set_lock held w)
    = (fst (run client p w), set_lock held (snd (run client p w))).
Proof.
  revert w.
  induction p as [a|e|k IH|k IH|lvl msg k IH|args kw k IH|key k IH|key v k IH];
    intros w Hp; simpl in *; try done.
  - by apply (IH (emit (EvLog lvl msg) w)).
  - by apply (IH (client args kw) (emit (EvRequest args kw) w)).
  - by apply (IH (STOP_TYPES_CACHE w !! key) (emit (EvCacheRead key) w)).
  - by apply (IH (emit (EvCacheWrite key v) (set_cache key v w))).
Qed.

(** [stop_point_types] and [journey_planner] pay no attention to the lock:
    they never wait for it, and with the lock held or free they send the
    same request, end the same way and leave the lock as it was. *)
Theorem unguarded_tools_ignore_lock client ctx a b w (held : bool) :
  fst (run client (stop_point_types ctx) w) ≠ Waiting
  ∧ run client (stop_point_types ctx) (set_lock held w)
    = (fst (run client (stop_point_types ctx) w),
       set_lock held (snd (run client (stop_point_types ctx) w)))
  ∧ fst (run client (journey_planner ctx a b) w) ≠ Waiting
  ∧ run client (journey_planner ctx a b) (set_lock held w)
    = (fst (run client (journey_planner ctx a b) w),
       set_lock held (snd (run client (journey_planner ctx a b) w))).
Proof.
  destruct (lock_free_run client (stop_point_types ctx) w held
              (lock_free_stop_point_types ctx)) as [H1 H2].
  destruct (lock_free_run client (journey_planner ctx a b) w held
              (lock_free_journey_planner ctx a b)) as [H3 H4].
  done.
Qed.

Lemma count_events_app (f : event → bool) (xs ys : list event) :
  count_events f (xs ++ ys) = (count_events f xs + count_events f ys)%nat.
Proof. unfold count_events. by rewrite List.filter_app, length_app. Qed.

Lemma run_invoke_world (client : client_fn) (c : tool_call) (w : world) :
  API_CALL_LOCK w = false →
  ∃ evs,
    snd (run client (invoke c) w) = with_trace w evs
    ∧ count_events is_request evs = 1%nat
    ∧ count_events is_acquire evs = (if is_stop_point_list c then 1 else 0)%nat
    ∧ count_events is_release evs = (if is_stop_point_list c then 1 else 0)%nat.
Proof.
  intros Hw.
  assert (∀ (A : Type) (p : prog A) (f : A → tool_value),
            snd (run client (p ≫= λ a, Ret (f a)) w) = snd (run client p w)) as Hsnd.
  { intros A p f. rewrite run_bind. by destruct (run client p w) as [[a|e|] w']. }
  destruct c as [ctx|ctx ty|ctx a b]; cbn [invoke is_stop_point_list]; rewrite Hsnd.
  - exists (stop_point_types_events ctx). by rewrite run_stop_point_types.
  - destruct (client [stop_point_list_url ty] (request_keywords ctx))
      as [e|r] eqn:Hc.
    { exists (stop_point_list_events ctx ty false).
      by rewrite (run_stop_point_list_raised _ _ _ _ e). }
    destruct (is_success r) eqn:Hs.
    { exists (stop_point_list_events ctx ty false).
      by rewrite (run_stop_point_list_success _ _ _ _ r). }
    destruct (decide (status_code r = 404)) as [H404|H404].
    { exists (stop_point_list_events ctx ty true).
      by rewrite (run_stop_point_list_404 _ _ _ _ r). }
    exists (stop_point_list_events ctx ty true).
    by rewrite (run_stop_point_list_other _ _ _ _ r).
  - exists (journey_planner_events ctx a b). by rewrite run_journey_planner.
Qed.

(** Tool calls made one after the other, from a state with the lock free:
    the lock is free again after the last one, each call has sent exactly
    one request, and the lock was taken and given back once for each
    [stop_point_list] among them. *)
Theorem run_calls_counts client (calls : list tool_call) w :
  API_CALL_LOCK w = false →
  API_CALL_LOCK (run_calls client calls w) = false
  ∧ count_events is_request (trace (run_calls client calls w))
    = (count_events is_request (trace w) + length calls)%nat
  ∧ count_events is_acquire (trace (run_calls client calls w))
    = (count_events is_acquire (trace w) + guarded_calls calls)%nat
  ∧ count_events is_release (trace (run_calls client calls w))
    = (count_events is_release (trace w) + guarded_calls calls)%nat.
Proof.
  revert w. induction calls as [|c calls IH]; intros w Hw.
  - unfold guarded_calls. simpl. repeat split; [done | lia..].
  - destruct (run_invoke_world client c w Hw) as (evs & Hevs & Hreq & Hacq & Hrel).
    cbn [run_calls]. rewrite Hevs.
    destruct (IH (with_trace w evs) Hw) as (Hlock & Hr & Ha & Hl).
    cbn [trace with_trace] in *. rewrite count_events_app in Hr, Ha, Hl.
    unfold guarded_calls in *. cbn [List.filter length].
    destruct (is_stop_point_list c); cbn [length];
      (split; [done |]); rewrite Hr, Ha, Hl, Hreq, Hacq, Hrel; lia.
Qed.

Lemma run_calls_counts_witness :
  API_CALL_LOCK initial_world = false
  ∧ length demo_calls = 3%nat
  ∧ guarded_calls demo_calls = 2%nat
  ∧ API_CALL_LOCK (run_calls demo_client demo_calls initial_world) = false
  ∧ count_events is_request (trace (run_calls demo_client demo_calls initial_world))
    = (count_events is_request (trace initial_world) + length demo_calls)%nat
  ∧ count_events is_acquire (trace (run_calls demo_client demo_calls initial_world))
    = (count_events is_acquire (trace initial_world) + guarded_calls demo_calls)%nat
  ∧ count_events is_release (trace (run_calls demo_client demo_calls initial_world))
    = (count_events is_release (trace initial_world) + guarded_calls demo_calls)%nat.
Proof.
  split; [reflexivity |]. split; [reflexivity |]. split; [reflexivity |].
  apply (run_calls_counts demo_client demo_calls initial_world). reflexivity.
Defined.

(** ** The pool, task by task *)

Lemma task_step_lock_free (w w' : world) (t t' : task tool_value) :
  task_lock_free t → task_step w t w' t' → task_lock_free t'.
Proof.
  intros Ht Hstep.
  destruct Hstep as [w k h Hw|w k h Hw|w k h Hw|w lvl msg k h|w args kw k h
                    |w k h answer|w key k h|w key v k h];
    unfold task_lock_free in *; simpl in *; try done; apply Ht.
Qed.

Lemma lock_free_invoke (c : tool_call) :
  is_stop_point_list c = false → lock_free (invoke c).
Proof.
  destruct c as [ctx|ctx ty|ctx a b]; [| done |]; intros _; cbn [invoke];
    (apply lock_free_bind; [| done]).
  - apply lock_free_stop_point_types.
  - apply lock_free_journey_planner.
Qed.

Lemma unguarded_tasks_nsteps (calls : list tool_call) (n : nat)
    (s s' : pool tool_value) :
  Forall2 (λ c t, is_stop_point_list c = false → task_lock_free t) calls (tasks s) →
  nsteps step n s s' →
  Forall2 (λ c t, is_stop_point_list c = false → task_lock_free t) calls (tasks s').
Proof.
  intros Hinv Hsteps. induction Hsteps as [|n s s1 s2 Hstep _ IH]; [done |].
  apply IH. destruct Hstep as [i w ts t w' t' Hi Hstep]. simpl in *.
  destruct (Forall2_lookup_r _ _ _ _ _ Hinv Hi) as (c & Hc & Ht).
  rewrite <- (list_insert_id calls i c Hc). apply Forall2_insert; [done |].
  intros Hg. by eapply task_step_lock_free; [apply Ht |].
Qed.

Lemma lock_free_not_holding {A : Type} (g h : bool) (p : prog A) :
  lock_free p → disciplined g h p → h = false.
Proof.
  induction p as [a|e|k IH|k IH|lvl msg k IH|args kw k IH|key k IH|key v k IH];
    simpl; try done; try (by apply IH).
  - intros Hp [_ Hd]. by apply (IH (inl RuntimeError)).
  - intros Hp Hd. by apply (IH None).
Qed.

Lemma lock_free_task_steps (w : world) (t : task tool_value) :
  task_lock_free t → finished t = false → ∃ w' t', task_step w t w' t'.
Proof.
  intros Hfree Hfin. destruct t as [[p|k] h];
    unfold task_lock_free, finished in *; simpl in *.
  - destruct p; try done; eexists _, _.
    + apply step_log.
    + apply step_send.
    + apply step_cache_read.
    + apply step_cache_write.
  - eexists _, _. apply (step_answer _ _ _ (inl RuntimeError)).
Qed.

(** In a pool of concurrent calls, a [stop_point_types] or a
    [journey_planner] call never waits for the lock: in every state the
    pool can reach, such a call that is not finished can take its next step,
    whether or not a [stop_point_list] holds the lock, and it never holds
    the lock itself. *)
Theorem unguarded_calls_never_wait (calls : list tool_call) (n : nat)
    (s : pool tool_value) (i : nat) (c : tool_call) (t : task tool_value) :
  nsteps step n (spawn calls) s →
  calls !! i = Some c → is_stop_point_list c = false →
  tasks s !! i = Some t → finished t = false →
  holds t = false
  ∧ ∃ w' t', step s {| shared := w'; tasks := <[i := t']> (tasks s) |}.
Proof.
  intros Hsteps Hc Hg Ht Hfin.
  assert (task_lock_free t) as Hfree.
  { assert (Forall2 (λ c t, is_stop_point_list c = false → task_lock_free t)
              calls (tasks s)) as Hinv.
    { apply (unguarded_tasks_nsteps calls n (spawn calls)); [| done]. simpl.
      apply Forall2_fmap_r, Forall_Forall2_diag, Forall_forall.
      intros c' _ Hc'. by apply lock_free_invoke. }
    by apply (Forall2_lookup_lr _ _ _ _ _ _ Hinv Hc Ht). }
  pose proof (pool_inv_nsteps calls n _ _ (pool_inv_spawn calls) Hsteps) as [Hd _].
  pose proof (Forall2_lookup_lr _ _ _ _ _ _ Hd Hc Ht) as Hdisc.
  split.
  - destruct t as [[p|k] h]; unfold task_lock_free, task_disciplined in *;
      simpl in *.
    + by eapply lock_free_not_holding.
    + destruct Hdisc as [_ Hdisc].
      by eapply (lock_free_not_holding _ _ (k (inl RuntimeError))).
  - destruct (lock_free_task_steps (shared s) t Hfree Hfin) as (w' & t' & Hstep).
    exists w', t'. destruct s as [w ts]. by apply step_at with t.
Qed.

(** The state just after the second call of [demo_calls] has taken the
    lock: the journey plan, third in the pool, can still go on. *)
Lemma unguarded_calls_never_wait_witness :
  ∃ (s : pool tool_value) (t : task tool_value),
    nsteps step 1 (spawn demo_calls) s
    ∧ API_CALL_LOCK (shared s) = true
    ∧ demo_calls !! 2%nat = Some (CallJourneyPlanner keyed_ctx "940GZZLUCTN" "940GZZLULVT")
    ∧ tasks s !! 2%nat = Some t
    ∧ finished t = false
    ∧ holds t = false
    ∧ ∃ w' t', step s {| shared := w'; tasks := <[2%nat := t']> (tasks s) |}.
Proof.
  eexists _, _.
  split; [| split; [| split; [| split; [| split]]]]; cycle 5.
  - eapply (unguarded_calls_never_wait demo_calls 1 _ 2
              (CallJourneyPlanner keyed_ctx "940GZZLUCTN" "940GZZLULVT")).
    + eapply nsteps_l; [| apply nsteps_O].
      eapply (step_at 1); [reflexivity |]. eapply step_acquire. reflexivity.
    + reflexivity.
    + reflexivity.
    + reflexivity.
    + reflexivity.
  - eapply nsteps_l; [| apply nsteps_O].
    eapply (step_at 1); [reflexivity |]. eapply step_acquire. reflexivity.
  - reflexivity.
  - reflexivity.
  - reflexivity.
  - reflexivity.
Defined.

(** In every state a pool of concurrent calls can reach, a
    [stop_point_list] call that is about to send its request or is waiting
    for the answer holds the lock, and a call that is about to release the
    lock finds it held: the release at the end of the [async with] block
    never raises. *)
Theorem guarded_request_under_lock (calls : list tool_call) (n : nat)
    (s : pool tool_value) (i : nat) (c : tool_call) (t : task tool_value) :
  nsteps step n (spawn calls) s →
  calls !! i = Some c → tasks s !! i = Some t →
  (is_stop_point_list c = true → at_request t = true →
   holds t = true ∧ API_CALL_LOCK (shared s) = true)
  ∧ (at_release t = true →
     holds t = true ∧ API_CALL_LOCK (shared s) = true).
Proof.
  intros Hsteps Hc Ht.
  pose proof (pool_inv_nsteps calls n _ _ (pool_inv_spawn calls) Hsteps) as [Hd Hh].
  pose proof (Forall2_lookup_lr _ _ _ _ _ _ Hd Hc Ht) as Hdisc.
  assert (holds t = true → API_CALL_LOCK (shared s) = true) as Hlock.
  { intros Hholds. pose proof (holders_lookup _ _ _ Ht Hholds).
    destruct (API_CALL_LOCK (shared s)); [done | lia]. }
  destruct t as [[p|k] h]; unfold task_disciplined, at_request, at_release in *;
    simpl in *.
  - destruct p; simpl in *; split; try done.
    + intros _. destruct Hdisc as [-> _]. split; [done | by apply Hlock].
    + intros Hg _. destruct Hdisc as [Hgh _]. specialize (Hgh Hg).
      split; [done | by apply Hlock].
  - split; [| done]. intros Hg _. destruct Hdisc as [Hgh _]. specialize (Hgh Hg).
    split; [done | by apply Hlock].
Qed.

Lemma guarded_request_under_lock_witness :
  ∃ (s : pool tool_value) (t : task tool_value),
    nsteps step 3 (spawn demo_calls) s
    ∧ demo_calls !! 1%nat = Some (CallStopPointList keyed_ctx "NaptanRailStation")
    ∧ tasks s !! 1%nat = Some t
    ∧ at_request t = true
    ∧ (is_stop_point_list (CallStopPointList keyed_ctx "NaptanRailStation") = true →
       at_request t = true →
       holds t = true ∧ API_CALL_LOCK (shared s) = true)
    ∧ (at_release t = true →
       holds t = true ∧ API_CALL_LOCK (shared s) = true).
Proof.
  eexists _, _.
  split; [| split; [| split; [| split]]]; cycle 4.
  - eapply (guarded_request_under_lock demo_calls 3 _ 1
              (CallStopPointList keyed_ctx "NaptanRailStation")).
    + eapply nsteps_l.
      { eapply (step_at 1); [reflexivity |]. eapply step_acquire. reflexivity. }
      eapply nsteps_l.
      { eapply (step_at 1); [reflexivity |]. eapply step_log. }
      eapply nsteps_l.
      { eapply (step_at 1); [reflexivity |]. eapply step_send. }
      apply nsteps_O.
    + reflexivity.
    + reflexivity.
  - eapply nsteps_l.
    { eapply (step_at 1); [reflexivity |]. eapply step_acquire. reflexivity. }
    eapply nsteps_l.
    { eapply (step_at 1); [reflexivity |]. eapply step_log. }
    eapply nsteps_l.
    { eapply (step_at 1); [reflexivity |]. eapply step_send. }
    apply nsteps_O.
  - reflexivity.
  - reflexivity.
  - reflexivity.
Defined.

(** ** With an API key *)

(** When [TFL_API_KEY] is set, [main] puts its value in the bundle, and
    every tool call hands the client one request: for the address of the
    tool, with [app_key] as its only header and the value of the variable
    in it, character for character, whatever the client then does with
    it. *)
Theorem keyed_calls_send_key (environ : gmap string string) (key : string)
    (client : client_fn) (c : tool_call) (w : world) :
  environ !! "TFL_API_KEY" = Some key →
  call_ctx c = main_ctx environ →
  API_CALL_LOCK w = false →
  ∃ before after,
    trace (snd (run client (invoke c) w))
    = (trace w ++ before
       ++ EvRequest [call_url c] {["headers" := KwHeaders {["app_key" := Some key]}]}
       :: after)%list
    ∧ count_events is_request before = 0%nat
    ∧ count_events is_request after = 0%nat.
Proof.
  intros Hkey Hctx Hw.
  assert (request_keywords (call_ctx c)
          = {["headers" := KwHeaders {["app_key" := Some key]}]}) as Hreq.
  { unfold request_keywords. rewrite Hctx. simpl. by rewrite Hkey. }
  assert (∀ (A : Type) (p : prog A) (f : A → tool_value),
            snd (run client (p ≫= λ a, Ret (f a)) w) = snd (run client p w)) as Hsnd.
  { intros A p f. rewrite run_bind. by destruct (run client p w) as [[a|e|] w']. }
  destruct c as [ctx|ctx ty|ctx a b]; cbn [invoke call_ctx call_url] in *;
    rewrite Hsnd, <- Hreq.
  - rewrite run_stop_point_types. by eexists [_], [].
  - assert (∃ failed, snd (run client (stop_point_list ctx ty) w)
                      = with_trace w (stop_point_list_events ctx ty failed))
      as [failed ->].
    { destruct (client [stop_point_list_url ty] (request_keywords ctx))
        as [e|r] eqn:Hc.
      { exists false. by rewrite (run_stop_point_list_raised _ _ _ _ e). }
      destruct (is_success r) eqn:Hs.
      { exists false. by rewrite (run_stop_point_list_success _ _ _ _ r). }
      destruct (decide (status_code r = 404)) as [H404|H404].
      { exists true. by rewrite (run_stop_point_list_404 _ _ _ _ r). }
      exists true. by rewrite (run_stop_point_list_other _ _ _ _ r). }
    eexists [_; _], _. split; [reflexivity |]. by destruct failed.
  - rewrite run_journey_planner. by eexists [_], [].
Qed.

Lemma keyed_calls_send_key_witness :
  environ_with_odd_key !! "TFL_API_KEY" = Some (String (ascii_of_nat 233) "k")
  ∧ API_CALL_LOCK initial_world = false
  ∧ trace (snd (run (replying not_found)
                    (invoke (CallStopPointTypes (main_ctx environ_with_odd_key)))
                    initial_world))
    = [EvLog INFO "Retrieving stop types";
       EvRequest [stop_point_types_url]
         {["headers" := KwHeaders {["app_key" := Some (String (ascii_of_nat 233) "k")]}]}]
  ∧ ∃ before after,
      trace (snd (run (replying not_found)
                      (invoke (CallStopPointTypes (main_ctx environ_with_odd_key)))
                      initial_world))
      = (trace initial_world ++ before
         ++ EvRequest [call_url (CallStopPointTypes (main_ctx environ_with_odd_key))]
              {["headers" := KwHeaders {["app_key" := Some (String (ascii_of_nat 233) "k")]}]}
         :: after)%list
      ∧ count_events is_request before = 0%nat
      ∧ count_events is_request after = 0%nat.
Proof.
  split; [reflexivity |]. split; [reflexivity |]. split; [reflexivity |].
  apply (keyed_calls_send_key environ_with_odd_key (String (ascii_of_nat 233) "k")
           (replying not_found)
           (CallStopPointTypes (main_ctx environ_with_odd_key)) initial_world);
    reflexivity.
Defined.
